(** * Ball Sort: the physics integrator and the connectivity analyzer

    A shallow embedding of [src/App.tsx]: the entity batch held in
    [ballsRef], the per-frame [animate] step, the spawner [generateBalls],
    and the two connectivity predicates [getHighlight] and [checkWin].

    Numbers.  The source computes on JavaScript numbers.  Here they are the
    real numbers of the Standard Library: [Math.hypot a b] is
    [sqrt (a * a + b * b)], and [<], [<=], [>] are the order of [R].
    Rounding, overflow and NaN are outside this model.  Where a property
    depends on the rounding, the integrator is given twice more: with every
    operation followed by a rounding function ([stepBallsR]), and on the
    binary64 numbers themselves ([stepBallsF]).

    Objects.  A [Ball] is a mutable object and the source tells balls apart
    by reference ([Set<Ball>]).  The batch is a list, and a ball's identity
    is its index in that list.  The [el] field is the rendering
    handle; the step only writes a style through it, so it is left out. *)

From Stdlib Require Import PrimFloat FloatOps SpecFloat.
From Stdlib Require Import String Ascii Decimal DecimalString.
From Stdlib Require Import ZArith Reals Lra Psatz Arith Lia Bool List.
From Equations Require Import Equations.
Import ListNotations.

Open Scope R_scope.

(** ** Numbers *)

(** [Math.hypot(a, b)] *)
Definition hypot (a b : R) : R := sqrt (a * a + b * b).

(** [a < b] and [a <= b] as the conditions of an [if]. *)
Definition Rltb (a b : R) : bool := if Rlt_dec a b then true else false.
Definition Rleb (a b : R) : bool := if Rle_dec a b then true else false.

(** ** Data model *)

Record Position := mkPosition { px : R; py : R }.

(** [color] is [colors[i % colorCount]] in the source; [None] is the value
    [undefined] that an index outside the palette reads. *)
Record Ball := mkBall {
  x : R;
  y : R;
  vx : R;
  vy : R;
  color : option string
}.

Definition FIELD_WIDTH : R := 600.
Definition FIELD_HEIGHT : R := 500.
Definition BALL_SIZE : R := 20.
Definition GROUP_RADIUS : R := 100.
Definition PUSH_RADIUS : R := 150.
Definition PUSH_FORCE : R := 25 / 10.
Definition MAX_SPEED : R := 6.
Definition FRICTION : R := 97 / 100.

(** ** Connectivity analyzer *)

(** A ball object: its identity (a reference, here a natural number) and
    its fields. *)
Definition entity : Type := nat * Ball.

(** The objects of the batch: the ball at index [i] has reference [i]. *)
Definition refs (balls : list Ball) : list entity :=
  combine (seq 0 (length balls)) balls.

(** The test of the traversal's inner [if]:
    [Math.hypot(dx, dy) <= GROUP_RADIUS] on the two centers. *)
Definition near (current other : Ball) : bool :=
  let dx := x current + BALL_SIZE / 2 - (x other + BALL_SIZE / 2) in
  let dy := y current + BALL_SIZE / 2 - (y other + BALL_SIZE / 2) in
  Rleb (hypot dx dy) GROUP_RADIUS.

(** [Set<Ball>]: [has], [add] and [size] (the length: [add] keeps the
    elements distinct). *)
Definition has (r : nat) (visited : list nat) : bool :=
  existsb (Nat.eqb r) visited.

Definition add (r : nat) (visited : list nat) : list nat :=
  if has r visited then visited else visited ++ [r].

(** The body of [forEach((other) => ...)].  The queue is a JavaScript array
    used as a stack: its end is the head of the list, so [push] is [cons]
    and [pop] takes the head. *)
Definition pushNear (current : entity) (visited : list nat)
    (queue : list entity) (other : entity) : list entity :=
  if negb (has (fst other) visited)
  then if near (snd current) (snd other) then other :: queue else queue
  else queue.

(** Termination of the [while (queue.length)] loop: the number of group
    members not yet visited, then the queue entries that cannot shrink it. *)
Definition member (r : nat) (group : list entity) : bool :=
  existsb (fun g => Nat.eqb (fst g) r) group.

Definition unvisited (group : list entity) (visited : list nat) : nat :=
  length (filter (fun e => negb (has (fst e) visited)) group).

Definition stale (group : list entity) (visited : list nat) (e : entity) : nat :=
  if has (fst e) visited then 1%nat
  else if member (fst e) group then 0%nat
  else 2%nat.

Definition weight (group : list entity) (visited : list nat)
    (queue : list entity) : nat :=
  list_sum (map (stale group visited) queue).

Lemma has_In r visited : has r visited = true <-> In r visited.
Proof.
  unfold has. rewrite existsb_exists. split.
  - intros [k [Hk He]]. apply Nat.eqb_eq in He. now subst.
  - intros H. exists r. split; [assumption | apply Nat.eqb_refl].
Qed.

Lemma has_add r s visited : has r (add s visited) = Nat.eqb r s || has r visited.
Proof.
  unfold add. destruct (has s visited) eqn:Hs.
  - destruct (Nat.eqb r s) eqn:Hrs; [|reflexivity].
    apply Nat.eqb_eq in Hrs. subst. now rewrite Hs.
  - unfold has. rewrite existsb_app. simpl. rewrite orb_false_r. apply orb_comm.
Qed.

Lemma add_has r visited : has r visited = true -> add r visited = visited.
Proof. unfold add. now intros ->. Qed.

Lemma unvisited_add_le group r visited :
  (unvisited group (add r visited) <= unvisited group visited)%nat.
Proof.
  unfold unvisited. induction group as [|g group IH]; simpl; [lia|].
  rewrite has_add. destruct (Nat.eqb (fst g) r), (has (fst g) visited); simpl; lia.
Qed.

Lemma unvisited_add_lt group r visited :
  has r visited = false -> member r group = true ->
  (unvisited group (add r visited) < unvisited group visited)%nat.
Proof.
  unfold unvisited, member. intros Hr.
  induction group as [|g group IH]; simpl; [discriminate|].
  rewrite has_add. destruct (Nat.eqb (fst g) r) eqn:Hg; simpl.
  - intros _. apply Nat.eqb_eq in Hg. rewrite Hg, Hr. simpl.
    pose proof (unvisited_add_le group r visited) as H. unfold unvisited in H. lia.
  - intros H. specialize (IH H).
    destruct (has (fst g) visited); simpl; lia.
Qed.

Lemma unvisited_add_out group r visited :
  member r group = false ->
  unvisited group (add r visited) = unvisited group visited.
Proof.
  unfold unvisited, member. induction group as [|g group IH]; simpl; [reflexivity|].
  intros H. apply orb_false_elim in H as [Hg H]. rewrite has_add, Hg. simpl.
  destruct (has (fst g) visited); simpl; rewrite IH; auto.
Qed.

Lemma stale_add_le group r visited e :
  has r visited = false -> member r group = false ->
  (stale group (add r visited) e <= stale group visited e)%nat.
Proof.
  intros Hr Hm. unfold stale. rewrite has_add.
  destruct (Nat.eqb (fst e) r) eqn:He; simpl.
  - apply Nat.eqb_eq in He. rewrite He, Hr, Hm. lia.
  - destruct (has (fst e) visited); [lia|]. destruct (member (fst e) group); lia.
Qed.

Lemma weight_add_le group r visited queue :
  has r visited = false -> member r group = false ->
  (weight group (add r visited) queue <= weight group visited queue)%nat.
Proof.
  intros Hr Hm. unfold weight. induction queue as [|e queue IH]; simpl; [lia|].
  pose proof (stale_add_le group r visited e Hr Hm). lia.
Qed.

Lemma In_member (e : entity) group : In e group -> member (fst e) group = true.
Proof.
  intros H. unfold member. apply existsb_exists. exists e.
  split; [assumption | apply Nat.eqb_refl].
Qed.

(** What one [forEach] pass pushes weighs nothing: every pushed entry is an
    unvisited member of the group. *)
Lemma weight_scan pool current visited group queue :
  (forall e, In e group -> member (fst e) pool = true) ->
  weight pool visited (fold_left (pushNear current visited) group queue) =
  weight pool visited queue.
Proof.
  revert queue. induction group as [|g group IH]; intros queue Hin; simpl; [reflexivity|].
  rewrite IH by (intros e He; apply Hin; now right).
  unfold pushNear. destruct (has (fst g) visited) eqn:Hg; simpl; [reflexivity|].
  destruct (near (snd current) (snd g)); [|reflexivity].
  unfold weight. simpl. unfold stale at 1. rewrite Hg, (Hin g) by now left. reflexivity.
Qed.

(** The reachability traversal: the [while (queue.length)] loop of
    [getHighlight] and [checkWin], from its queue and visited set to the
    visited set it ends with. *)
Equations? traverse (group queue : list entity) (visited : list nat) : list nat
  by wf (unvisited group visited, weight group visited queue) (Subterm.lexprod nat nat lt lt) :=
  traverse group [] visited := visited;
  traverse group (current :: queue) visited :=
    traverse group
      (fold_left (pushNear current (add (fst current) visited)) group queue)
      (add (fst current) visited).
Proof.
  destruct (has (fst current) visited) eqn:Hv.
  - rewrite (add_has _ _ Hv). right.
    rewrite weight_scan by (intros e He; now apply In_member).
    unfold weight. simpl. unfold stale at 2. rewrite Hv. lia.
  - destruct (member (fst current) group) eqn:Hm.
    + left. now apply unvisited_add_lt.
    + rewrite (unvisited_add_out _ _ _ Hm). right.
      rewrite weight_scan by (intros e He; now apply In_member).
      pose proof (weight_add_le group (fst current) visited queue Hv Hm) as Hw.
      unfold weight at 2. simpl. unfold stale at 1. rewrite Hv, Hm.
      fold (weight group visited queue). lia.
Qed.

(** [a === b] on two [color] values. *)
Definition colorEqb (a b : option string) : bool :=
  match a, b with
  | Some s, Some t => String.eqb s t
  | None, None => true
  | _, _ => false
  end.

(** [getHighlight(ball)].  [ball] is one of the objects of the batch, as in
    the rendering loop [ballsRef.current.map((ball, i) => ...)]. *)
Definition getHighlight (balls : list Ball) (ball : entity) : bool :=
  if (length balls =? 0)%nat then false
  else
    let sameColorBalls :=
      filter (fun b => colorEqb (color (snd b)) (color (snd ball))) (refs balls) in
    if (length sameColorBalls <? 2)%nat then false
    else
      match sameColorBalls with
      | [] => false
      | first :: _ =>
          let visited := traverse sameColorBalls [first] [] in
          has (fst ball) visited && (1 <? length visited)%nat
      end.

(** The property key that [groups[b.color]] reads and writes: a key is a
    string, and [undefined] is converted to one.  The palette has no name
    that [Object.prototype] defines, so a lookup of a new key is falsy. *)
Definition colorKey (c : option string) : string :=
  match c with
  | Some s => s
  | None => "undefined"%string
  end.

(** [groups]: an object used as a map from color to the array of its balls,
    kept in the order its keys were created. *)
Definition Groups : Type := list (string * list entity).

(** [if (!groups[b.color]) groups[b.color] = []; groups[b.color].push(b)] *)
Fixpoint pushGroup (key : string) (b : entity) (groups : Groups) : Groups :=
  match groups with
  | [] => [(key, [b])]
  | (k, colorBalls) :: rest =>
      if String.eqb key k then (k, colorBalls ++ [b]) :: rest
      else (k, colorBalls) :: pushGroup key b rest
  end.

(** [balls.forEach((b) => ...)] from the empty object. *)
Definition groupBalls (balls : list entity) : Groups :=
  fold_left (fun groups b => pushGroup (colorKey (color (snd b))) b groups) balls [].

(** The body of [for (const color in groups)]: [true] when the iteration
    goes on, [false] when it returns [false].  On an empty array the seed
    [colorBalls[0]] is [undefined], which ends up alone in [visited]. *)
Definition connected (colorBalls : list entity) : bool :=
  match colorBalls with
  | [] => false
  | first :: _ =>
      (length (traverse colorBalls [first] []) =? length colorBalls)%nat
  end.

(** An element of [positions]: a center and its color. *)
Record Center := mkCenter { cx : R; cy : R; ccolor : option string }.

Definition center (b : Ball) : Center :=
  mkCenter (x b + BALL_SIZE / 2) (y b + BALL_SIZE / 2) (color b).

(** The test of the innermost [if] of the pair loop. *)
Definition clash (p q : Center) : bool :=
  negb (colorEqb (ccolor p) (ccolor q))
  && Rleb (hypot (cx p - cx q) (cy p - cy q)) GROUP_RADIUS.

(** [for (let i = 0; ...) for (let j = i + 1; ...)]: [false] as soon as a
    pair clashes. *)
Fixpoint pairLoop (positions : list Center) : bool :=
  match positions with
  | [] => true
  | p :: rest => forallb (fun q => negb (clash p q)) rest && pairLoop rest
  end.

(** [checkWin]: the guard on the empty batch, the loop over the groups,
    then the loop over the pairs. *)
Definition checkWin (balls : list Ball) : bool :=
  if (length balls =? 0)%nat then false
  else if forallb (fun g => connected (snd g)) (groupBalls (refs balls))
  then pairLoop (map center balls)
  else false.

(** ** Physics integrator *)

(** The cursor block of the loop body, guarded by
    [cursorRef.current && !isWin]. *)
Definition pushFromCursor (cursor : option Position) (isWin : bool) (b : Ball) : Ball :=
  match cursor with
  | Some c =>
      if negb isWin then
        let dx := x b + BALL_SIZE / 2 - px c in
        let dy := y b + BALL_SIZE / 2 - py c in
        let dist := hypot dx dy in
        if Rltb dist PUSH_RADIUS && Rltb 0 dist then
          let force := (PUSH_RADIUS - dist) / PUSH_RADIUS in
          mkBall (x b) (y b)
                 (vx b + dx / dist * PUSH_FORCE * force)
                 (vy b + dy / dist * PUSH_FORCE * force)
                 (color b)
        else b
      else b
  | None => b
  end.

(** The body of the inner loop on [b = balls[i]] and [o = balls[j]]. *)
Definition collide (b o : Ball) : Ball * Ball :=
  let dx := x b - x o in
  let dy := y b - y o in
  let dist := hypot dx dy in
  if Rltb dist BALL_SIZE && Rltb 0 dist then
    let overlap := BALL_SIZE - dist in
    let nx := dx / dist in
    let ny := dy / dist in
    let force := 3 / 10 in
    (mkBall (x b + nx * overlap / 2) (y b + ny * overlap / 2)
            (vx b + nx * force) (vy b + ny * force) (color b),
     mkBall (x o - nx * overlap / 2) (y o - ny * overlap / 2)
            (vx o - nx * force) (vy o - ny * force) (color o))
  else (b, o).

(** [b.x += b.vx; b.y += b.vy; b.vx *= FRICTION; b.vy *= FRICTION] *)
Definition move (b : Ball) : Ball :=
  mkBall (x b + vx b) (y b + vy b) (vx b * FRICTION) (vy b * FRICTION) (color b).

(** The speed clamp of lines 159 to 163. *)
Definition limitSpeed (b : Ball) : Ball :=
  let speed := hypot (vx b) (vy b) in
  if Rltb MAX_SPEED speed then
    mkBall (x b) (y b) (vx b / speed * MAX_SPEED) (vy b / speed * MAX_SPEED) (color b)
  else b.

(** The four boundary tests, in the order of the source. *)
Definition bounceLeft (b : Ball) : Ball :=
  if Rltb (x b) 0 then mkBall 0 (y b) (vx b * - (6 / 10)) (vy b) (color b) else b.

Definition bounceRight (b : Ball) : Ball :=
  if Rltb (FIELD_WIDTH - BALL_SIZE) (x b)
  then mkBall (FIELD_WIDTH - BALL_SIZE) (y b) (vx b * - (6 / 10)) (vy b) (color b)
  else b.

Definition bounceTop (b : Ball) : Ball :=
  if Rltb (y b) 0 then mkBall (x b) 0 (vx b) (vy b * - (6 / 10)) (color b) else b.

Definition bounceBottom (b : Ball) : Ball :=
  if Rltb (FIELD_HEIGHT - BALL_SIZE) (y b)
  then mkBall (x b) (FIELD_HEIGHT - BALL_SIZE) (vx b) (vy b * - (6 / 10)) (color b)
  else b.

Definition bounce (b : Ball) : Ball :=
  bounceBottom (bounceTop (bounceRight (bounceLeft b))).

(** Lines 154 to 168 on one ball. *)
Definition settle (b : Ball) : Ball := bounce (limitSpeed (move b)).

(** The batch is an array of mutable objects: a write to [balls[i]]'s
    fields is a replacement at index [i]. *)
Fixpoint setAt (i : nat) (b : Ball) (balls : list Ball) : list Ball :=
  match balls, i with
  | [], _ => []
  | _ :: rest, O => b :: rest
  | a :: rest, S k => a :: setAt k b rest
  end.

Definition updateAt (i : nat) (f : Ball -> Ball) (balls : list Ball) : list Ball :=
  match nth_error balls i with
  | Some b => setAt i (f b) balls
  | None => balls
  end.

Definition collideAt (i j : nat) (balls : list Ball) : list Ball :=
  match nth_error balls i, nth_error balls j with
  | Some b, Some o =>
      let (b', o') := collide b o in setAt j o' (setAt i b' balls)
  | _, _ => balls
  end.

(** The body of [for (let i = 0; i < balls.length; i++)]: the cursor block,
    the loop [for (let j = i + 1; j < balls.length; j++)], then lines 154
    to 168. *)
Definition frameBody (cursor : option Position) (isWin : bool)
    (balls : list Ball) (i : nat) : list Ball :=
  let balls1 := updateAt i (pushFromCursor cursor isWin) balls in
  let balls2 :=
    fold_left (fun bs j => collideAt i j bs)
              (seq (S i) (length balls - S i)) balls1 in
  updateAt i settle balls2.

(** The outer loop: one pass of the integrator over the batch. *)
Definition stepBalls (cursor : option Position) (isWin : bool)
    (balls : list Ball) : list Ball :=
  fold_left (frameBody cursor isWin) (seq 0 (length balls)) balls.

(** ** Session *)

(** [ballsRef.current], [cursorRef.current], the states [cursorPos],
    [isWin] and [errorMessage], and whether the elapsed-time callback is
    still scheduled. *)
Record Session := mkSession {
  ballsRef : list Ball;
  cursorRef : option Position;
  cursorPos : option Position;
  isWin : bool;
  clock : bool;
  errorMessage : option string
}.

(** One call of [animate]. *)
Definition animate (s : Session) : Session :=
  if (length (ballsRef s) =? 0)%nat then s
  else
    let balls := stepBalls (cursorRef s) (isWin s) (ballsRef s) in
    if negb (isWin s) && checkWin balls
    then mkSession balls (cursorRef s) None true false (errorMessage s)
    else mkSession balls (cursorRef s) (cursorPos s) (isWin s) (clock s)
                   (errorMessage s).

(** ** Spawning a batch *)

Definition colors : list string :=
  ["red"; "green"; "blue"; "yellow"; "purple"; "orange"]%string.

(** [colors[i % colorCount]]: [i % 0] is NaN, and an index that is NaN or
    past the end of the array reads [undefined]. *)
Definition paletteAt (i colorCount : nat) : option string :=
  if (colorCount =? 0)%nat then None else nth_error colors (i mod colorCount).

(** A number inside a template literal. *)
Definition show (n : nat) : string := NilEmpty.string_of_uint (Nat.to_uint n).

Definition insufficient (ballCount colorCount : nat) : string :=
  ("Error: For " ++ show colorCount ++ " colors, you need at least "
   ++ show (colorCount * 2) ++ " balls. Currently set: "
   ++ show ballCount ++ ".")%string.

(** The object [Array.from] builds at index [i].  [random k] is what the
    [k]-th call of [Math.random] returns: ball [i] takes calls [2 * i] and
    [2 * i + 1], for [x] and then [y]. *)
Definition spawn (random : nat -> R) (colorCount i : nat) : Ball :=
  mkBall (random (2 * i)%nat * (FIELD_WIDTH - BALL_SIZE))
         (random (2 * i + 1)%nat * (FIELD_HEIGHT - BALL_SIZE))
         0 0 (paletteAt i colorCount).

(** [generateBalls]: the value given to [setErrorMessage] and the batch
    returned. *)
Definition generateBalls (ballCount colorCount : nat) (random : nat -> R)
    : option string * list Ball :=
  if (ballCount <? colorCount * 2)%nat
  then (Some (insufficient ballCount colorCount), [])
  else (None, map (spawn random colorCount) (seq 0 ballCount)).

(** [startGame]: with an empty batch it returns before it touches the
    session. *)
Definition startGame (ballCount colorCount : nat) (random : nat -> R)
    (s : Session) : Session :=
  let (err, balls) := generateBalls ballCount colorCount random in
  if (length balls =? 0)%nat
  then mkSession (ballsRef s) (cursorRef s) (cursorPos s) (isWin s) (clock s) err
  else mkSession balls None None false true err.

(** ** Pointer events *)

(** [handleMove]: ignored once the session is won; otherwise the pointer,
    taken relative to the field's bounding rectangle, is stored in
    [cursorRef] and in [cursorPos]. *)
Definition handleMove (clientX clientY rectLeft rectTop : R) (s : Session) : Session :=
  if isWin s then s
  else
    let pos := mkPosition (clientX - rectLeft) (clientY - rectTop) in
    mkSession (ballsRef s) (Some pos) (Some pos) (isWin s) (clock s)
              (errorMessage s).

(** [handleLeave] *)
Definition handleLeave (s : Session) : Session :=
  mkSession (ballsRef s) None None (isWin s) (clock s) (errorMessage s).

(** The session a mounted component starts from: the initial values of the
    refs and of the states. *)
Definition mounted : Session := mkSession [] None None false false None.

(** What can happen to a session: a call of [startGame] with the counts
    and the random source it reads, a frame, and the two pointer events. *)
Inductive Event :=
| Start (ballCount colorCount : nat) (random : nat -> R)
| Frame
| Move (clientX clientY rectLeft rectTop : R)
| Leave.

Definition handle (s : Session) (e : Event) : Session :=
  match e with
  | Start ballCount colorCount random => startGame ballCount colorCount random s
  | Frame => animate s
  | Move clientX clientY rectLeft rectTop =>
      handleMove clientX clientY rectLeft rectTop s
  | Leave => handleLeave s
  end.

Definition run (events : list Event) (s : Session) : Session :=
  fold_left handle events s.

(** ** Elapsed time *)

(** [Math.floor] *)
Definition floor (r : R) : Z := Int_part r.

(** The integer part that [%] takes off the quotient: towards zero. *)
Definition trunc (r : R) : Z :=
  if Rle_dec 0 r then Int_part r else (- Int_part (- r))%Z.

(** [a % b] on numbers *)
Definition remainder (a b : R) : R := a - b * IZR (trunc (a / b)).

(** An integer inside a template literal, or its [toString()]. *)
Definition showZ (z : Z) : string :=
  match z with
  | Z0 => "0"%string
  | Zpos p => NilEmpty.string_of_uint (Pos.to_uint p)
  | Zneg p => String "-"%char (NilEmpty.string_of_uint (Pos.to_uint p))
  end.

(** [str.padStart(n, "0")] *)
Definition padStart (n : nat) (str : string) : string :=
  (String.concat "" (repeat "0" (n - String.length str)) ++ str)%string.

(** [formatTime] *)
Definition formatTime (ms : R) : string :=
  let seconds := floor (ms / 1000) in
  let msRemainder := floor (remainder ms 1000) in
  (showZ seconds ++ "." ++ padStart 3 (showZ msRemainder) ++ "s")%string.

(** ** The two loops of the integrator, whatever the arithmetic *)

Section Loops.

Variable B : Type.

(** The cursor block, the collision block and lines 154 to 168, each on
    the balls it reads and writes. *)
Variable push : B -> B.
Variable hit : B -> B -> B * B.
Variable finish : B -> B.

Fixpoint putAt (i : nat) (b : B) (balls : list B) : list B :=
  match balls, i with
  | [], _ => []
  | _ :: rest, O => b :: rest
  | a :: rest, S k => a :: putAt k b rest
  end.

Definition changeAt (i : nat) (f : B -> B) (balls : list B) : list B :=
  match nth_error balls i with
  | Some b => putAt i (f b) balls
  | None => balls
  end.

Definition hitAt (i j : nat) (balls : list B) : list B :=
  match nth_error balls i, nth_error balls j with
  | Some b, Some o => let (b', o') := hit b o in putAt j o' (putAt i b' balls)
  | _, _ => balls
  end.

(** The body of [for (let i = 0; i < balls.length; i++)]. *)
Definition frame (balls : list B) (i : nat) : list B :=
  let balls1 := changeAt i push balls in
  let balls2 :=
    fold_left (fun bs j => hitAt i j bs)
              (seq (S i) (length balls - S i)) balls1 in
  changeAt i finish balls2.

Definition pass (balls : list B) : list B :=
  fold_left frame (seq 0 (length balls)) balls.

End Loops.

Arguments putAt {B}.
Arguments changeAt {B}.
Arguments hitAt {B}.
Arguments frame {B}.
Arguments pass {B}.

(** ** The integrator in rounded arithmetic *)

(** Every operation of the source gives the rounding [rnd] of its exact
    result, and [Math.hypot] is [hyp].  The literals 0.97, 0.3 and 0.6 are
    rounded as well; the other constants of the source are integers or
    2.5, which a binary format holds exactly.  With the identity for [rnd]
    and [hypot] for [hyp] this is the integrator above; with the rounding
    to the nearest binary64 number it is the arithmetic of the source, as
    long as nothing overflows. *)
Section Rounded.

Variable rnd : R -> R.
Variable hyp : R -> R -> R.

Definition pushFromCursorR (cursor : option Position) (isWin : bool) (b : Ball) : Ball :=
  match cursor with
  | Some c =>
      if negb isWin then
        let dx := rnd (rnd (x b + rnd (BALL_SIZE / 2)) - px c) in
        let dy := rnd (rnd (y b + rnd (BALL_SIZE / 2)) - py c) in
        let dist := hyp dx dy in
        if Rltb dist PUSH_RADIUS && Rltb 0 dist then
          let force := rnd (rnd (PUSH_RADIUS - dist) / PUSH_RADIUS) in
          mkBall (x b) (y b)
                 (rnd (vx b + rnd (rnd (rnd (dx / dist) * PUSH_FORCE) * force)))
                 (rnd (vy b + rnd (rnd (rnd (dy / dist) * PUSH_FORCE) * force)))
                 (color b)
        else b
      else b
  | None => b
  end.

Definition collideR (b o : Ball) : Ball * Ball :=
  let dx := rnd (x b - x o) in
  let dy := rnd (y b - y o) in
  let dist := hyp dx dy in
  if Rltb dist BALL_SIZE && Rltb 0 dist then
    let overlap := rnd (BALL_SIZE - dist) in
    let nx := rnd (dx / dist) in
    let ny := rnd (dy / dist) in
    let force := rnd (3 / 10) in
    (mkBall (rnd (x b + rnd (rnd (nx * overlap) / 2)))
            (rnd (y b + rnd (rnd (ny * overlap) / 2)))
            (rnd (vx b + rnd (nx * force))) (rnd (vy b + rnd (ny * force)))
            (color b),
     mkBall (rnd (x o - rnd (rnd (nx * overlap) / 2)))
            (rnd (y o - rnd (rnd (ny * overlap) / 2)))
            (rnd (vx o - rnd (nx * force))) (rnd (vy o - rnd (ny * force)))
            (color o))
  else (b, o).

Definition moveR (b : Ball) : Ball :=
  mkBall (rnd (x b + vx b)) (rnd (y b + vy b))
         (rnd (vx b * rnd FRICTION)) (rnd (vy b * rnd FRICTION)) (color b).

Definition limitSpeedR (b : Ball) : Ball :=
  let speed := hyp (vx b) (vy b) in
  if Rltb MAX_SPEED speed then
    mkBall (x b) (y b)
           (rnd (rnd (vx b / speed) * MAX_SPEED))
           (rnd (rnd (vy b / speed) * MAX_SPEED)) (color b)
  else b.

Definition bounceLeftR (b : Ball) : Ball :=
  if Rltb (x b) 0
  then mkBall 0 (y b) (rnd (vx b * - rnd (6 / 10))) (vy b) (color b)
  else b.

Definition bounceRightR (b : Ball) : Ball :=
  if Rltb (rnd (FIELD_WIDTH - BALL_SIZE)) (x b)
  then mkBall (rnd (FIELD_WIDTH - BALL_SIZE)) (y b)
              (rnd (vx b * - rnd (6 / 10))) (vy b) (color b)
  else b.

Definition bounceTopR (b : Ball) : Ball :=
  if Rltb (y b) 0
  then mkBall (x b) 0 (vx b) (rnd (vy b * - rnd (6 / 10))) (color b)
  else b.

Definition bounceBottomR (b : Ball) : Ball :=
  if Rltb (rnd (FIELD_HEIGHT - BALL_SIZE)) (y b)
  then mkBall (x b) (rnd (FIELD_HEIGHT - BALL_SIZE)) (vx b)
              (rnd (vy b * - rnd (6 / 10))) (color b)
  else b.

Definition bounceR (b : Ball) : Ball :=
  bounceBottomR (bounceTopR (bounceRightR (bounceLeftR b))).

Definition settleR (b : Ball) : Ball := bounceR (limitSpeedR (moveR b)).

Definition stepBallsR (cursor : option Position) (isWin : bool)
    (balls : list Ball) : list Ball :=
  pass (pushFromCursorR cursor isWin) collideR settleR balls.

End Rounded.

(** ** The integrator on binary64 numbers *)

(** The numbers of the source themselves: the operations are those of
    IEEE 754 binary64, rounded to nearest.  The language leaves the value
    of [Math.hypot] to the implementation; it is taken here as the rounded
    square root of the rounded sum of the rounded squares, which is exact
    whenever the squares, their sum and its root are binary64 numbers. *)
Record BallF := mkBallF {
  xF : float;
  yF : float;
  vxF : float;
  vyF : float;
  colorF : option string
}.

Record PositionF := mkPositionF { pxF : float; pyF : float }.

Definition hypotF (a b : float) : float := PrimFloat.sqrt (a * a + b * b)%float.

Definition FIELD_WIDTH_F : float := 600%float.
Definition FIELD_HEIGHT_F : float := 500%float.
Definition BALL_SIZE_F : float := 20%float.
Definition PUSH_RADIUS_F : float := 150%float.
Definition PUSH_FORCE_F : float := 2.5%float.
Definition MAX_SPEED_F : float := 6%float.
#[warnings="-inexact-float"]
Definition FRICTION_F : float := 0.97%float.

Definition pushFromCursorF (cursor : option PositionF) (isWin : bool)
    (b : BallF) : BallF :=
  match cursor with
  | Some c =>
      if negb isWin then
        let dx := (xF b + BALL_SIZE_F / 2 - pxF c)%float in
        let dy := (yF b + BALL_SIZE_F / 2 - pyF c)%float in
        let dist := hypotF dx dy in
        if (dist <? PUSH_RADIUS_F)%float && (0 <? dist)%float then
          let force := ((PUSH_RADIUS_F - dist) / PUSH_RADIUS_F)%float in
          mkBallF (xF b) (yF b)
                  (vxF b + dx / dist * PUSH_FORCE_F * force)%float
                  (vyF b + dy / dist * PUSH_FORCE_F * force)%float
                  (colorF b)
        else b
      else b
  | None => b
  end.

#[warnings="-inexact-float"]
Definition collideF (b o : BallF) : BallF * BallF :=
  let dx := (xF b - xF o)%float in
  let dy := (yF b - yF o)%float in
  let dist := hypotF dx dy in
  if (dist <? BALL_SIZE_F)%float && (0 <? dist)%float then
    let overlap := (BALL_SIZE_F - dist)%float in
    let nx := (dx / dist)%float in
    let ny := (dy / dist)%float in
    let force := 0.3%float in
    (mkBallF (xF b + nx * overlap / 2)%float (yF b + ny * overlap / 2)%float
             (vxF b + nx * force)%float (vyF b + ny * force)%float (colorF b),
     mkBallF (xF o - nx * overlap / 2)%float (yF o - ny * overlap / 2)%float
             (vxF o - nx * force)%float (vyF o - ny * force)%float (colorF o))
  else (b, o).

Definition moveF (b : BallF) : BallF :=
  mkBallF (xF b + vxF b)%float (yF b + vyF b)%float
          (vxF b * FRICTION_F)%float (vyF b * FRICTION_F)%float (colorF b).

Definition limitSpeedF (b : BallF) : BallF :=
  let speed := hypotF (vxF b) (vyF b) in
  if (MAX_SPEED_F <? speed)%float then
    mkBallF (xF b) (yF b)
            (vxF b / speed * MAX_SPEED_F)%float
            (vyF b / speed * MAX_SPEED_F)%float (colorF b)
  else b.

#[warnings="-inexact-float"]
Definition bounceLeftF (b : BallF) : BallF :=
  if (xF b <? 0)%float
  then mkBallF 0%float (yF b) (vxF b * - 0.6)%float (vyF b) (colorF b)
  else b.

#[warnings="-inexact-float"]
Definition bounceRightF (b : BallF) : BallF :=
  if (FIELD_WIDTH_F - BALL_SIZE_F <? xF b)%float
  then mkBallF (FIELD_WIDTH_F - BALL_SIZE_F)%float (yF b)
               (vxF b * - 0.6)%float (vyF b) (colorF b)
  else b.

#[warnings="-inexact-float"]
Definition bounceTopF (b : BallF) : BallF :=
  if (yF b <? 0)%float
  then mkBallF (xF b) 0%float (vxF b) (vyF b * - 0.6)%float (colorF b)
  else b.

#[warnings="-inexact-float"]
Definition bounceBottomF (b : BallF) : BallF :=
  if (FIELD_HEIGHT_F - BALL_SIZE_F <? yF b)%float
  then mkBallF (xF b) (FIELD_HEIGHT_F - BALL_SIZE_F)%float (vxF b)
               (vyF b * - 0.6)%float (colorF b)
  else b.

Definition bounceF (b : BallF) : BallF :=
  bounceBottomF (bounceTopF (bounceRightF (bounceLeftF b))).

Definition settleF (b : BallF) : BallF := bounceF (limitSpeedF (moveF b)).

Definition stepBallsF (cursor : option PositionF) (isWin : bool)
    (balls : list BallF) : list BallF :=
  pass (pushFromCursorF cursor isWin) collideF settleF balls.

(** The real number a binary64 number stands for (0 for the zeros, and
    for the infinities and NaN, which do not stand for one). *)
Definition valueF (f : float) : R :=
  match Prim2SF f with
  | S754_finite s m e =>
      (if s then - IZR (Zpos m) else IZR (Zpos m)) * powerRZ 2 e
  | _ => 0
  end.

(** ** What the theorems speak of *)

(** The arena bounds on the top-left corner of a ball. *)
Definition inArena (b : Ball) : Prop :=
  0 <= x b <= FIELD_WIDTH - BALL_SIZE /\ 0 <= y b <= FIELD_HEIGHT - BALL_SIZE.

(** The magnitude of the velocity. *)
Definition speed (b : Ball) : R := hypot (vx b) (vy b).

(** Runs of frames: the cursor and the won flag are read anew at every
    frame. *)
Definition runFrames (frames : list (option Position * bool))
    (balls : list Ball) : list Ball :=
  fold_left (fun bs f => stepBalls (fst f) (snd f) bs) frames balls.

(** The distance between the centers of two balls. *)
Definition centerDistance (b o : Ball) : R :=
  hypot (x b + BALL_SIZE / 2 - (x o + BALL_SIZE / 2))
        (y b + BALL_SIZE / 2 - (y o + BALL_SIZE / 2)).

(** The overlap of two balls: the diameter minus the center distance. *)
Definition overlap (b o : Ball) : R := BALL_SIZE - centerDistance b o.

(** What one pair of boundary tests does to a coordinate. *)
Definition clamp (lo hi v : R) : R :=
  if Rltb v lo then lo else if Rltb hi v then hi else v.

(** Two same-color balls are joined when their centers are at most
    GROUP_RADIUS apart; [reach group seed] is what can be reached from the
    seed along such edges inside the group. *)
Inductive reach (group : list entity) (seed : entity) : entity -> Prop :=
| reach_seed : reach group seed seed
| reach_step a b :
    reach group seed a -> In b group ->
    centerDistance (snd a) (snd b) <= GROUP_RADIUS ->
    reach group seed b.

(** The key under which [checkWin] files a ball. *)
Definition keyOf (e : entity) : string := colorKey (color (snd e)).

(** The balls of one color, in batch order. *)
Definition colorGroup (balls : list Ball) (key : string) : list entity :=
  filter (fun e => String.eqb (keyOf e) key) (refs balls).

(** The first member of the group reaches every member. *)
Definition clustered (group : list entity) : Prop :=
  exists first rest,
    group = first :: rest /\ forall e, In e group -> reach group first e.

(** Every color group of the batch is one cluster. *)
Definition allClustered (balls : list Ball) : Prop :=
  forall e, In e (refs balls) -> clustered (colorGroup balls (keyOf e)).

(** No two balls of different colors have centers within GROUP_RADIUS. *)
Definition noClash (balls : list Ball) : Prop :=
  forall a b, In a balls -> In b balls -> color a <> color b ->
    GROUP_RADIUS < centerDistance a b.

(** [sameColorBalls]: the balls whose color is that of [ball], in batch
    order. *)
Definition sameColorGroup (balls : list Ball) (ball : entity) : list entity :=
  filter (fun b => colorEqb (color (snd b)) (color (snd ball))) (refs balls).

(** The ball is in the cluster of the first ball of its color, and that
    cluster has a second member. *)
Definition inSeedCluster (balls : list Ball) (ball : entity) : Prop :=
  exists first rest,
    sameColorGroup balls ball = first :: rest /\
    reach (sameColorGroup balls ball) first ball /\
    exists other, other <> first /\ reach (sameColorGroup balls ball) first other.

(** The ball is in some cluster of its color that has a second member. *)
Definition inSomeCluster (balls : list Ball) (ball : entity) : Prop :=
  exists other,
    other <> ball /\ reach (sameColorGroup balls ball) ball other.

(** What [groups] holds once the [forEach] has gone through [done]. *)
Record grouped (done : list entity) (groups : Groups) : Prop := {
  keys_distinct : NoDup (map fst groups);
  group_members :
    forall k es, In (k, es) groups ->
      es = filter (fun e => String.eqb (keyOf e) k) done /\ es <> [];
  group_found : forall e, In e done -> exists es, In (keyOf e, es) groups
}.

(** A ball that does not move. *)
Definition atRest (b : Ball) : Prop := vx b = 0 /\ vy b = 0.

(** No two balls of the batch are in the range where the collision acts:
    their centers are at least BALL_SIZE apart, or coincide. *)
Definition separated (balls : list Ball) : Prop :=
  forall i j b o, i <> j ->
    nth_error balls i = Some b -> nth_error balls j = Some o ->
    BALL_SIZE <= centerDistance b o \/ centerDistance b o = 0.

(** An event whose random source, if it has one, answers in [0, 1) as
    [Math.random] does. *)
Definition fair (e : Event) : Prop :=
  match e with
  | Start _ _ random => forall k, 0 <= random k < 1
  | _ => True
  end.

(** An event that is not a call of [startGame]. *)
Definition noStart (e : Event) : Prop :=
  match e with
  | Start _ _ _ => False
  | _ => True
  end.

(** The number of frames among the events. *)
Fixpoint frames (events : list Event) : nat :=
  match events with
  | [] => 0%nat
  | Frame :: rest => S (frames rest)
  | _ :: rest => frames rest
  end.

(** What every session reached from the mounted one satisfies. *)
Record consistent (s : Session) : Prop := {
  won_hides_cursor : isWin s = true -> cursorPos s = None;
  won_stops_clock : isWin s = true -> clock s = false;
  won_has_balls : isWin s = true -> ballsRef s <> [];
  shown_cursor : cursorPos s <> None -> cursorPos s = cursorRef s;
  clock_has_balls : clock s = true -> ballsRef s <> []
}.

(** The bound on the speed a step leaves, for operations of relative
    error at most [u] (and absolute error [eta] where they underflow) and a
    [Math.hypot] of relative error at most [uh]; it is MAX_SPEED when the
    three are 0. *)
Definition speedBound (u uh eta : R) : R :=
  MAX_SPEED * ((1 + u) * (1 + u)) / (1 - uh) + 20 * eta.

(** ** Sessions and batches of the examples *)

(** A ball inside the arena, slower than MAX_SPEED, and a cursor 20 from
    its center: after the push and the friction its velocity is (4.5, 6). *)
Definition pushedBall : BallF :=
  mkBallF 253 187 0x1.73f2a0d051a38p+1 0x1.38ad2140ec786p+2 (Some "red"%string).
Definition pushingCursor : PositionF := mkPositionF 247 185.

(** A won session whose single ball is still moving. *)
Definition wonSession : Session :=
  mkSession [mkBall 100 100 1 0 (Some "red"%string)] None None true false None.

(** Two balls inside the arena, 10 apart, moving towards each other. *)
Definition headOnLeft : Ball := mkBall 100 100 (57 / 10) 0 (Some "red"%string).
Definition headOnRight : Ball := mkBall 110 100 (- (57 / 10)) 0 (Some "red"%string).

(** Two balls at rest, 19 apart, the first against the right wall, and a
    cursor to their left. *)
Definition pinnedRight : Ball := mkBall 580 100 0 0 (Some "red"%string).
Definition pinnedLeft : Ball := mkBall 561 100 0 0 (Some "red"%string).
Definition pinnedCursor : Position := mkPosition 531 110.

(** The random source that always answers 0. *)
Definition zeros : nat -> R := fun _ => 0.

(** Three red balls on a line: the first one alone, the other two 50
    apart. *)
Definition strayFirst : list Ball :=
  [mkBall 0 0 0 0 (Some "red"%string);
   mkBall 300 0 0 0 (Some "red"%string);
   mkBall 350 0 0 0 (Some "red"%string)].

(** Two red balls 50 apart. *)
Definition redPair : list Ball :=
  [mkBall 0 0 0 0 (Some "red"%string); mkBall 50 0 0 0 (Some "red"%string)].

(** Two red balls 50 apart and two blue balls 50 apart, the colors at
    least 250 from each other. *)
Definition sortedBatch : list Ball :=
  [mkBall 0 0 0 0 (Some "red"%string);
   mkBall 300 0 0 0 (Some "blue"%string);
   mkBall 50 0 0 0 (Some "red"%string);
   mkBall 350 0 0 0 (Some "blue"%string)].

(** * Theorems *)

(** C9: on the empty entity batch the win predicate returns false. *)
Theorem checkWin_empty : checkWin [] = false.
Proof. reflexivity. Qed.

(** ** Arithmetic of [hypot] and of the comparisons *)

Lemma Rltb_true a b : Rltb a b = true <-> a < b.
Proof. unfold Rltb. destruct (Rlt_dec a b); split; intros; try easy. Qed.

Lemma Rltb_false a b : Rltb a b = false <-> b <= a.
Proof. unfold Rltb. destruct (Rlt_dec a b); split; intros; try easy; lra. Qed.

Lemma Rleb_true a b : Rleb a b = true <-> a <= b.
Proof. unfold Rleb. destruct (Rle_dec a b); split; intros; try easy. Qed.

Lemma Rleb_false a b : Rleb a b = false <-> b < a.
Proof. unfold Rleb. destruct (Rle_dec a b); split; intros; try easy; lra. Qed.

Lemma sum_sq_nonneg a b : 0 <= a * a + b * b.
Proof. nra. Qed.

Lemma hypot_nonneg a b : 0 <= hypot a b.
Proof. apply sqrt_pos. Qed.

Lemma hypot_sq a b : hypot a b * hypot a b = a * a + b * b.
Proof. apply sqrt_sqrt, sum_sq_nonneg. Qed.

Lemma hypot_le_iff a b r : 0 <= r -> (hypot a b <= r <-> a * a + b * b <= r * r).
Proof.
  intros Hr. pose proof (hypot_nonneg a b) as H0. pose proof (hypot_sq a b) as Hs.
  split; intros H; nra.
Qed.

Lemma hypot_lt_iff a b r : 0 <= r -> (hypot a b < r <-> a * a + b * b < r * r).
Proof.
  intros Hr. pose proof (hypot_nonneg a b) as H0. pose proof (hypot_sq a b) as Hs.
  split; intros H; nra.
Qed.

Lemma hypot_mono a b c d :
  a * a + b * b <= c * c + d * d -> hypot a b <= hypot c d.
Proof. intros H. apply sqrt_le_1; auto using sum_sq_nonneg. Qed.

Lemma hypot_mono_lt a b c d :
  a * a + b * b < c * c + d * d -> hypot a b < hypot c d.
Proof. intros H. apply sqrt_lt_1; auto using sum_sq_nonneg. Qed.

Lemma hypot_sym a b : hypot (- a) (- b) = hypot a b.
Proof. unfold hypot. f_equal. ring. Qed.

Lemma hypot_axis a : 0 <= a -> hypot a 0 = a.
Proof.
  intros H. unfold hypot. replace (a * a + 0 * 0) with (a * a) by ring.
  now apply sqrt_square.
Qed.

(** ** The integrator, ball by ball *)

Lemma bounce_inArena b : inArena (bounce b).
Proof.
  unfold inArena, bounce, bounceBottom, bounceTop, bounceRight, bounceLeft,
    FIELD_WIDTH, FIELD_HEIGHT, BALL_SIZE.
  destruct (Rltb (x b) 0) eqn:H1; cbn [x y vx vy color];
  [apply Rltb_true in H1 | apply Rltb_false in H1];
  match goal with |- context [Rltb (600 - 20) ?u] =>
    destruct (Rltb (600 - 20) u) eqn:H2 end; cbn [x y vx vy color];
  [apply Rltb_true in H2 | apply Rltb_false in H2
  |apply Rltb_true in H2 | apply Rltb_false in H2];
  destruct (Rltb (y b) 0) eqn:H3; cbn [x y vx vy color];
  try (apply Rltb_true in H3); try (apply Rltb_false in H3);
  match goal with |- context [Rltb (500 - 20) ?u] =>
    destruct (Rltb (500 - 20) u) eqn:H4 end; cbn [x y vx vy color];
  try (apply Rltb_true in H4); try (apply Rltb_false in H4);
  lra.
Qed.

Lemma settle_inArena b : inArena (settle b).
Proof. apply bounce_inArena. Qed.

(** ** The integrator on the batch *)

Lemma setAt_length i b balls : length (setAt i b balls) = length balls.
Proof.
  revert i. induction balls as [|a balls IH]; intros [|i]; simpl; auto.
Qed.

Lemma nth_error_setAt_eq i b balls :
  (i < length balls)%nat -> nth_error (setAt i b balls) i = Some b.
Proof.
  revert i. induction balls as [|a balls IH]; intros [|i] H; simpl in *;
    try lia; auto. apply IH. lia.
Qed.

Lemma nth_error_setAt_ne i k b balls :
  i <> k -> nth_error (setAt i b balls) k = nth_error balls k.
Proof.
  revert i k. induction balls as [|a balls IH]; intros [|i] [|k] H; simpl;
    try congruence; auto.
Qed.

Lemma updateAt_length i f balls : length (updateAt i f balls) = length balls.
Proof.
  unfold updateAt. destruct (nth_error balls i); auto using setAt_length.
Qed.

Lemma nth_error_updateAt_ne i k f balls :
  i <> k -> nth_error (updateAt i f balls) k = nth_error balls k.
Proof.
  intros H. unfold updateAt. destruct (nth_error balls i); auto.
  now apply nth_error_setAt_ne.
Qed.

Lemma nth_error_updateAt_eq i f balls b :
  nth_error balls i = Some b -> nth_error (updateAt i f balls) i = Some (f b).
Proof.
  intros H. unfold updateAt. rewrite H. apply nth_error_setAt_eq.
  apply nth_error_Some. congruence.
Qed.

Lemma collideAt_length i j balls : length (collideAt i j balls) = length balls.
Proof.
  unfold collideAt. destruct (nth_error balls i); auto.
  destruct (nth_error balls j); auto. destruct (collide _ _).
  now rewrite !setAt_length.
Qed.

Lemma nth_error_collideAt_ne i j k balls :
  k <> i -> k <> j -> nth_error (collideAt i j balls) k = nth_error balls k.
Proof.
  intros Hi Hj. unfold collideAt. destruct (nth_error balls i); auto.
  destruct (nth_error balls j); auto. destruct (collide _ _).
  rewrite !nth_error_setAt_ne; auto.
Qed.

Lemma collisions_length i js balls :
  length (fold_left (fun bs j => collideAt i j bs) js balls) = length balls.
Proof.
  revert balls. induction js as [|j js IH]; intros balls; simpl; auto.
  now rewrite IH, collideAt_length.
Qed.

Lemma nth_error_collisions_low i js k balls :
  (k < i)%nat -> Forall (fun j => (i < j)%nat) js ->
  nth_error (fold_left (fun bs j => collideAt i j bs) js balls) k =
  nth_error balls k.
Proof.
  intros Hk. revert balls. induction js as [|j js IH]; intros balls Hjs; simpl; auto.
  inversion Hjs; subst. rewrite IH by assumption.
  apply nth_error_collideAt_ne; lia.
Qed.

Lemma seq_above i n : Forall (fun j => (i < j)%nat) (seq (S i) n).
Proof. apply Forall_forall. intros j Hj. apply in_seq in Hj. lia. Qed.

Lemma frameBody_length cursor win balls i :
  length (frameBody cursor win balls i) = length balls.
Proof.
  unfold frameBody. now rewrite updateAt_length, collisions_length, updateAt_length.
Qed.

Lemma frameBody_low cursor win balls i k :
  (k < i)%nat ->
  nth_error (frameBody cursor win balls i) k = nth_error balls k.
Proof.
  intros H. unfold frameBody.
  rewrite nth_error_updateAt_ne by lia.
  rewrite nth_error_collisions_low by (auto using seq_above).
  apply nth_error_updateAt_ne. lia.
Qed.

Lemma frameBody_at cursor win balls i :
  (i < length balls)%nat ->
  exists b, nth_error (frameBody cursor win balls i) i = Some (settle b).
Proof.
  intros H. unfold frameBody.
  set (balls2 := fold_left _ _ _).
  assert (Hlen : length balls2 = length balls)
    by (unfold balls2; now rewrite collisions_length, updateAt_length).
  destruct (nth_error balls2 i) as [b|] eqn:Hb.
  - exists b. now apply nth_error_updateAt_eq.
  - apply nth_error_None in Hb. lia.
Qed.

Lemma stepBalls_length cursor win balls :
  length (stepBalls cursor win balls) = length balls.
Proof.
  unfold stepBalls. generalize (seq 0 (length balls)) as js. intros js.
  revert balls. induction js as [|j js IH]; intros balls; simpl; auto.
  now rewrite IH, frameBody_length.
Qed.

(** Every ball leaves the frame as [settle] left it: the iterations after
    its own write to later balls only. *)
Lemma frames_settled cursor win n i balls :
  (i + n = length balls)%nat ->
  (forall k, (k < i)%nat -> exists b, nth_error balls k = Some (settle b)) ->
  forall k, (k < length balls)%nat ->
  exists b,
    nth_error (fold_left (frameBody cursor win) (seq i n) balls) k = Some (settle b).
Proof.
  revert i balls. induction n as [|n IH]; intros i balls Hlen Hlow k Hk; simpl.
  - apply Hlow. lia.
  - rewrite <- (frameBody_length cursor win balls i) in Hk.
    apply IH; auto.
    + rewrite frameBody_length. lia.
    + intros m Hm. destruct (Nat.eq_dec m i) as [-> | Hne].
      * apply frameBody_at. lia.
      * rewrite frameBody_low by lia. apply Hlow. lia.
Qed.

Lemma stepBalls_settled cursor win balls b' :
  In b' (stepBalls cursor win balls) -> exists b, b' = settle b.
Proof.
  intros H. apply In_nth_error in H as [k Hk].
  assert (Hlt : (k < length balls)%nat).
  { rewrite <- (stepBalls_length cursor win balls). apply nth_error_Some. congruence. }
  destruct (frames_settled cursor win (length balls) 0 balls eq_refl
              (fun k H => ltac:(lia)) k Hlt) as [b Hb].
  unfold stepBalls in Hk. rewrite Hb in Hk. exists b. congruence.
Qed.

(** C3: after one integrator step, and after any positive number of them,
    whatever the batch, the cursor and the won flag, every entity has
    0 <= x <= FIELD_WIDTH - BALL_SIZE and 0 <= y <= FIELD_HEIGHT - BALL_SIZE;
    the same holds of the batch one call of [animate] leaves. *)
Theorem stepBalls_inArena :
  (forall cursor win balls, Forall inArena (stepBalls cursor win balls)) /\
  (forall f frames balls, Forall inArena (runFrames (frames ++ [f]) balls)) /\
  (forall s, Forall inArena (ballsRef (animate s))).
Proof.
  assert (H1 : forall cursor win balls, Forall inArena (stepBalls cursor win balls)).
  { intros. apply Forall_forall. intros b' Hb'.
    apply stepBalls_settled in Hb' as [b ->]. apply settle_inArena. }
  split; [exact H1 | split].
  - intros f frames balls. unfold runFrames. rewrite fold_left_app. simpl. apply H1.
  - intros s. unfold animate.
    destruct (length (ballsRef s) =? 0)%nat eqn:He.
    + apply Nat.eqb_eq in He. destruct (ballsRef s); [constructor | discriminate].
    + destruct (negb (isWin s) && checkWin _); apply H1.
Qed.

(** C8: with the session not won and the cursor at distance d from the
    ball's center, the cursor block adds to the velocity the unit vector
    from the cursor to the center scaled by
    PUSH_FORCE * (PUSH_RADIUS - d) / PUSH_RADIUS when 0 < d < PUSH_RADIUS,
    and leaves the ball as it is when d = 0 or d >= PUSH_RADIUS. *)
Theorem pushFromCursor_force (b : Ball) (c : Position) :
  let dx := x b + BALL_SIZE / 2 - px c in
  let dy := y b + BALL_SIZE / 2 - py c in
  let d := hypot dx dy in
  (0 < d < PUSH_RADIUS ->
   pushFromCursor (Some c) false b =
   mkBall (x b) (y b)
          (vx b + dx / d * (PUSH_FORCE * ((PUSH_RADIUS - d) / PUSH_RADIUS)))
          (vy b + dy / d * (PUSH_FORCE * ((PUSH_RADIUS - d) / PUSH_RADIUS)))
          (color b)) /\
  (d = 0 \/ PUSH_RADIUS <= d -> pushFromCursor (Some c) false b = b) /\
  PUSH_FORCE = 25 / 10 /\ PUSH_RADIUS = 150.
Proof.
  intros dx dy d. unfold pushFromCursor. cbn [negb].
  fold dx dy. fold d. repeat split.
  - intros [H0 H1]. apply Rltb_true in H0, H1. rewrite H0, H1. cbn [andb].
    f_equal; ring.
  - intros [H | H].
    + assert (H0 : Rltb 0 d = false) by (apply Rltb_false; lra).
      rewrite H0, andb_false_r. reflexivity.
    + apply Rltb_false in H. rewrite H. reflexivity.
Qed.

(** The theorem at a ball whose center is 30 to the right of the cursor,
    and at one whose center is on the cursor. *)
Lemma pushFromCursor_force_witness :
  pushFromCursor (Some (mkPosition 80 110)) false (mkBall 100 100 0 0 None) =
    mkBall 100 100 2 0 None /\
  pushFromCursor (Some (mkPosition 110 110)) false (mkBall 100 100 0 0 None) =
    mkBall 100 100 0 0 None.
Proof.
  split.
  - destruct (pushFromCursor_force (mkBall 100 100 0 0 None) (mkPosition 80 110))
      as [H _].
    cbn [x y vx vy color px py] in H. unfold BALL_SIZE, PUSH_RADIUS, PUSH_FORCE in H.
    replace (100 + 20 / 2 - 80) with 30 in H by lra.
    replace (100 + 20 / 2 - 110) with 0 in H by lra.
    rewrite hypot_axis in H by lra.
    rewrite H by lra. f_equal; lra.
  - destruct (pushFromCursor_force (mkBall 100 100 0 0 None) (mkPosition 110 110))
      as [_ [H _]].
    apply H. left. cbn [x y px py]. unfold BALL_SIZE.
    replace (100 + 20 / 2 - 110) with 0 by lra.
    apply hypot_axis. lra.
Defined.

(** ** The won session *)

Lemma pushFromCursor_won cursor b : pushFromCursor cursor true b = b.
Proof. destruct cursor; reflexivity. Qed.

Lemma updateAt_ext i f g balls :
  (forall b, f b = g b) -> updateAt i f balls = updateAt i g balls.
Proof. intros H. unfold updateAt. destruct (nth_error balls i); now rewrite ?H. Qed.

Lemma frameBody_won cursor balls i :
  frameBody cursor true balls i = frameBody None false balls i.
Proof.
  unfold frameBody.
  rewrite (updateAt_ext i (pushFromCursor cursor true) (pushFromCursor None false));
    [reflexivity|].
  intros b. apply pushFromCursor_won.
Qed.

Lemma stepBalls_won cursor balls :
  stepBalls cursor true balls = stepBalls None false balls.
Proof.
  unfold stepBalls. generalize (seq 0 (length balls)) as js. intros js.
  revert balls. induction js as [|j js IH]; intros balls; simpl; [reflexivity|].
  now rewrite frameBody_won, IH.
Qed.

Lemma stepBalls_nil cursor win : stepBalls cursor win [] = [].
Proof. reflexivity. Qed.

Lemma x_limitSpeed b : x (limitSpeed b) = x b.
Proof. unfold limitSpeed. now destruct (Rltb _ _). Qed.

Lemma y_limitSpeed b : y (limitSpeed b) = y b.
Proof. unfold limitSpeed. now destruct (Rltb _ _). Qed.

(** A ball the walls do not touch. *)
Lemma bounce_inside b : inArena b -> bounce b = b.
Proof.
  unfold inArena, FIELD_WIDTH, FIELD_HEIGHT, BALL_SIZE. intros [Hx Hy].
  unfold bounce, bounceLeft.
  replace (Rltb (x b) 0) with false by (symmetry; apply Rltb_false; lra).
  unfold bounceRight, FIELD_WIDTH, BALL_SIZE.
  replace (Rltb (600 - 20) (x b)) with false by (symmetry; apply Rltb_false; lra).
  unfold bounceTop.
  replace (Rltb (y b) 0) with false by (symmetry; apply Rltb_false; lra).
  unfold bounceBottom, FIELD_HEIGHT, BALL_SIZE.
  replace (Rltb (500 - 20) (y b)) with false by (symmetry; apply Rltb_false; lra).
  reflexivity.
Qed.

(** C2, as stated, fails: in a won session a ball at x = 100 with
    velocity (1, 0) is at x = 101 with velocity (0.97, 0) after one call of
    [animate]. *)
Lemma won_session_moves :
  isWin wonSession = true /\
  ballsRef (animate wonSession) = [mkBall 101 100 (97 / 100) 0 (Some "red"%string)].
Proof.
  split; [reflexivity|].
  assert (H : ballsRef (animate wonSession) =
              [settle (mkBall 100 100 1 0 (Some "red"%string))]) by reflexivity.
  rewrite H. f_equal. unfold settle.
  assert (Hl : limitSpeed (move (mkBall 100 100 1 0 (Some "red"%string))) =
               mkBall 101 100 (97 / 100) 0 (Some "red"%string)).
  { unfold limitSpeed, move. cbn [x y vx vy color]. unfold FRICTION, MAX_SPEED.
    replace (0 * (97 / 100)) with 0 by lra.
    rewrite hypot_axis by lra.
    replace (Rltb 6 (1 * (97 / 100))) with false by (symmetry; apply Rltb_false; lra).
    f_equal; lra. }
  rewrite Hl. apply bounce_inside.
  unfold inArena, FIELD_WIDTH, FIELD_HEIGHT, BALL_SIZE. cbn [x y]. lra.
Qed.

(** C2, amended: in a won session one call of [animate] applies no cursor
    force, wherever the cursor is: the batch it leaves is the one the step
    computes with no cursor, through the collisions, the integration, the
    friction, the speed clamp and the walls, which still run; the won
    flag, the cursor and the clock stay as they are. *)
Theorem animate_won (s : Session) :
  isWin s = true ->
  ballsRef (animate s) = stepBalls None false (ballsRef s) /\
  isWin (animate s) = true /\
  cursorRef (animate s) = cursorRef s /\
  cursorPos (animate s) = cursorPos s /\
  clock (animate s) = clock s.
Proof.
  intros Hw. unfold animate.
  destruct (length (ballsRef s) =? 0)%nat eqn:He.
  - apply Nat.eqb_eq in He. destruct (ballsRef s); [|discriminate].
    rewrite stepBalls_nil. auto.
  - rewrite Hw. cbn [negb andb ballsRef isWin cursorRef cursorPos clock].
    rewrite stepBalls_won. auto.
Qed.

Lemma animate_won_witness :
  ballsRef (animate wonSession) = stepBalls None false (ballsRef wonSession).
Proof. exact (proj1 (animate_won wonSession eq_refl)). Defined.

(** ** Two overlapping balls *)

Lemma stepBalls_two cursor win b o :
  stepBalls cursor win [b; o] =
  [settle (fst (collide (pushFromCursor cursor win b) o));
   settle (pushFromCursor cursor win (snd (collide (pushFromCursor cursor win b) o)))].
Proof.
  unfold stepBalls, frameBody, updateAt, collideAt.
  cbn [length seq fold_left nth_error setAt Nat.sub].
  destruct (collide (pushFromCursor cursor win b) o) as [b1 o1].
  cbn [length seq fold_left nth_error setAt Nat.sub fst snd]. reflexivity.
Qed.

Lemma x_bounce b : x (bounce b) = clamp 0 (FIELD_WIDTH - BALL_SIZE) (x b).
Proof.
  unfold bounce, bounceBottom, bounceTop, bounceRight, bounceLeft, clamp,
    FIELD_WIDTH, FIELD_HEIGHT, BALL_SIZE.
  destruct (Rltb (x b) 0) eqn:H1; cbn [x y vx vy color].
  - replace (Rltb (600 - 20) 0) with false by (symmetry; apply Rltb_false; lra).
    cbn [x y]. destruct (Rltb (y b) 0); cbn [x y];
      match goal with |- context [Rltb (500 - 20) ?u] =>
        destruct (Rltb (500 - 20) u) end; reflexivity.
  - destruct (Rltb (600 - 20) (x b)); cbn [x y];
      destruct (Rltb (y b) 0); cbn [x y];
      match goal with |- context [Rltb (500 - 20) ?u] =>
        destruct (Rltb (500 - 20) u) end; reflexivity.
Qed.

Lemma y_bounce b : y (bounce b) = clamp 0 (FIELD_HEIGHT - BALL_SIZE) (y b).
Proof.
  unfold bounce, bounceBottom, bounceTop, bounceRight, bounceLeft, clamp,
    FIELD_WIDTH, FIELD_HEIGHT, BALL_SIZE.
  destruct (Rltb (x b) 0); cbn [x y vx vy color];
    match goal with |- context [Rltb (600 - 20) ?u] =>
      destruct (Rltb (600 - 20) u) end; cbn [x y];
    (destruct (Rltb (y b) 0) eqn:H3; cbn [x y];
     [ replace (Rltb (500 - 20) 0) with false by (symmetry; apply Rltb_false; lra)
     | destruct (Rltb (500 - 20) (y b)) ]; reflexivity).
Qed.

Lemma x_settle b : x (settle b) = clamp 0 (FIELD_WIDTH - BALL_SIZE) (x b + vx b).
Proof. unfold settle. now rewrite x_bounce, x_limitSpeed. Qed.

Lemma y_settle b : y (settle b) = clamp 0 (FIELD_HEIGHT - BALL_SIZE) (y b + vy b).
Proof. unfold settle. now rewrite y_bounce, y_limitSpeed. Qed.

(** Two coordinates inside [lo, hi], moved apart by the same amount and
    then clamped, are no closer than before; they are farther when they
    differed and do not span the whole interval. *)
Lemma clamp_spread lo hi p q k :
  lo <= p <= hi -> lo <= q <= hi -> 0 < k ->
  let P := clamp lo hi (p + k * (p - q)) in
  let Q := clamp lo hi (q - k * (p - q)) in
  (p - q) * (p - q) <= (P - Q) * (P - Q) /\
  (p <> q -> Rabs (p - q) < hi - lo -> (p - q) * (p - q) < (P - Q) * (P - Q)).
Proof.
  intros Hp Hq Hk P Q. subst P Q. unfold clamp.
  set (t := k * (p - q)).
  assert (Ht : (q <= p -> 0 <= t) /\ (p <= q -> t <= 0) /\
               (q < p -> 0 < t) /\ (p < q -> t < 0)) by (unfold t; repeat split; nra).
  clearbody t. destruct Ht as (Ht1 & Ht2 & Ht3 & Ht4).
  destruct (Rltb (p + t) lo) eqn:H1;
    [apply Rltb_true in H1 | apply Rltb_false in H1];
  (destruct (Rltb hi (p + t)) eqn:H2;
    [apply Rltb_true in H2 | apply Rltb_false in H2]);
  (destruct (Rltb (q - t) lo) eqn:H3;
    [apply Rltb_true in H3 | apply Rltb_false in H3]);
  (destruct (Rltb hi (q - t)) eqn:H4;
    [apply Rltb_true in H4 | apply Rltb_false in H4]);
  (split; [| intros Hne Habs; unfold Rabs in Habs;
             destruct (Rcase_abs (p - q)) as [Hn | Hn]]);
  (destruct (Rle_lt_dec q p) as [Hqp | Hqp];
   [ pose proof (Ht1 Hqp);
     try (assert (Hlt : q < p) by lra; pose proof (Ht3 Hlt))
   | pose proof (Ht4 Hqp); pose proof (Ht2 (Rlt_le _ _ Hqp)) ]);
  try lra; nra.
Qed.

Lemma hypot_axis_neg a : a <= 0 -> hypot a 0 = - a.
Proof.
  intros H. replace (hypot a 0) with (hypot (- a) (- 0)) by apply hypot_sym.
  replace (- 0) with 0 by ring. apply hypot_axis. lra.
Qed.

Lemma ball_eq x1 y1 u1 v1 x2 y2 u2 v2 c :
  x1 = x2 -> y1 = y2 -> u1 = u2 -> v1 = v2 ->
  mkBall x1 y1 u1 v1 c = mkBall x2 y2 u2 v2 c.
Proof. now intros -> -> -> ->. Qed.

(** A ball that ends the frame slow enough and inside the walls. *)
Lemma settle_free b :
  inArena (move b) -> speed (move b) <= MAX_SPEED -> settle b = move b.
Proof.
  intros Ha Hs. unfold settle.
  assert (Hl : limitSpeed (move b) = move b).
  { unfold limitSpeed. fold (speed (move b)).
    replace (Rltb MAX_SPEED (speed (move b))) with false; [reflexivity|].
    symmetry. now apply Rltb_false. }
  rewrite Hl. now apply bounce_inside.
Qed.

Lemma collide_hit b o :
  let dx := x b - x o in
  let dy := y b - y o in
  let d := hypot dx dy in
  0 < d < BALL_SIZE ->
  collide b o =
  (mkBall (x b + dx / d * (BALL_SIZE - d) / 2) (y b + dy / d * (BALL_SIZE - d) / 2)
          (vx b + dx / d * (3 / 10)) (vy b + dy / d * (3 / 10)) (color b),
   mkBall (x o - dx / d * (BALL_SIZE - d) / 2) (y o - dy / d * (BALL_SIZE - d) / 2)
          (vx o - dx / d * (3 / 10)) (vy o - dy / d * (3 / 10)) (color o)).
Proof.
  intros dx dy d [H0 H1]. unfold collide. fold dx dy. fold d.
  apply Rltb_true in H0, H1. now rewrite H0, H1.
Qed.

(** C7, as stated, fails: two balls 10 apart, with velocities (5.7, 0) and
    (-5.7, 0), are 9.2 apart after one step, so their overlap grows from 10
    to 10.8. *)
Lemma overlap_can_grow :
  0 < centerDistance headOnLeft headOnRight < BALL_SIZE /\
  overlap headOnLeft headOnRight = 10 /\
  exists b' o',
    stepBalls None false [headOnLeft; headOnRight] = [b'; o'] /\
    overlap b' o' = 108 / 10.
Proof.
  assert (Hd : centerDistance headOnLeft headOnRight = 10).
  { unfold centerDistance, headOnLeft, headOnRight, BALL_SIZE. cbn [x y].
    replace (100 + 20 / 2 - (110 + 20 / 2)) with (- (10)) by lra.
    replace (100 + 20 / 2 - (100 + 20 / 2)) with 0 by lra.
    rewrite hypot_axis_neg by lra. lra. }
  split; [rewrite Hd; unfold BALL_SIZE; lra|].
  split; [unfold overlap; rewrite Hd; unfold BALL_SIZE; lra|].
  exists (mkBall (1004 / 10) 100 (5238 / 1000) 0 (Some "red"%string)),
         (mkBall (1096 / 10) 100 (- (5238 / 1000)) 0 (Some "red"%string)).
  split.
  - rewrite stepBalls_two. cbn [pushFromCursor].
    assert (Hh : hypot (x headOnLeft - x headOnRight) (y headOnLeft - y headOnRight) = 10).
    { unfold headOnLeft, headOnRight. cbn [x y].
      replace (100 - 110) with (- (10)) by lra. replace (100 - 100) with 0 by lra.
      rewrite hypot_axis_neg by lra. lra. }
    rewrite collide_hit by (rewrite Hh; unfold BALL_SIZE; lra).
    rewrite Hh. cbn [fst snd]. unfold headOnLeft, headOnRight, BALL_SIZE.
    cbn [x y vx vy color].
    rewrite !settle_free.
    + unfold move, FRICTION. cbn [x y vx vy color].
      f_equal; [|f_equal]; apply ball_eq; lra.
    + unfold inArena, move, FIELD_WIDTH, FIELD_HEIGHT, BALL_SIZE. cbn [x y vx vy]. lra.
    + unfold speed, move, MAX_SPEED, FRICTION. cbn [vx vy].
      apply hypot_le_iff; lra.
    + unfold inArena, move, FIELD_WIDTH, FIELD_HEIGHT, BALL_SIZE. cbn [x y vx vy]. lra.
    + unfold speed, move, MAX_SPEED, FRICTION. cbn [vx vy].
      apply hypot_le_iff; lra.
  - unfold overlap, centerDistance, BALL_SIZE. cbn [x y].
    replace (1004 / 10 + 20 / 2 - (1096 / 10 + 20 / 2)) with (- (92 / 10)) by lra.
    replace (100 + 20 / 2 - (100 + 20 / 2)) with 0 by lra.
    rewrite hypot_axis_neg by lra. lra.
Qed.

Lemma pushFromCursor_hit b c :
  let dx := x b + BALL_SIZE / 2 - px c in
  let dy := y b + BALL_SIZE / 2 - py c in
  let d := hypot dx dy in
  0 < d < PUSH_RADIUS ->
  pushFromCursor (Some c) false b =
  mkBall (x b) (y b)
         (vx b + dx / d * PUSH_FORCE * ((PUSH_RADIUS - d) / PUSH_RADIUS))
         (vy b + dy / d * PUSH_FORCE * ((PUSH_RADIUS - d) / PUSH_RADIUS))
         (color b).
Proof.
  intros dx dy d [H0 H1]. unfold pushFromCursor. cbn [negb].
  fold dx dy. fold d. apply Rltb_true in H0, H1. now rewrite H0, H1.
Qed.

(** The same failure with both balls at rest: the wall holds the first
    ball at x = 580 while the cursor pushes the second one towards it, and
    the pair ends less than 18 apart, from 19. *)
Lemma overlap_can_grow_under_cursor :
  0 < centerDistance pinnedRight pinnedLeft < BALL_SIZE /\
  inArena pinnedRight /\ inArena pinnedLeft /\
  exists b' o',
    stepBalls (Some pinnedCursor) false [pinnedRight; pinnedLeft] = [b'; o'] /\
    overlap pinnedRight pinnedLeft < overlap b' o'.
Proof.
  assert (Hd : centerDistance pinnedRight pinnedLeft = 19).
  { unfold centerDistance, pinnedRight, pinnedLeft, BALL_SIZE. cbn [x y].
    replace (580 + 20 / 2 - (561 + 20 / 2)) with 19 by lra.
    replace (100 + 20 / 2 - (100 + 20 / 2)) with 0 by lra.
    apply hypot_axis. lra. }
  split; [rewrite Hd; unfold BALL_SIZE; lra|].
  split; [unfold inArena, pinnedRight, FIELD_WIDTH, FIELD_HEIGHT, BALL_SIZE;
          cbn [x y]; lra|].
  split; [unfold inArena, pinnedLeft, FIELD_WIDTH, FIELD_HEIGHT, BALL_SIZE;
          cbn [x y]; lra|].
  eexists. eexists. split; [apply stepBalls_two|].
  assert (H1 : pushFromCursor (Some pinnedCursor) false pinnedRight =
               mkBall 580 100 (91 / 60) 0 (Some "red"%string)).
  { assert (Hh : hypot (x pinnedRight + BALL_SIZE / 2 - px pinnedCursor)
                       (y pinnedRight + BALL_SIZE / 2 - py pinnedCursor) = 59).
    { unfold pinnedRight, pinnedCursor, BALL_SIZE. cbn [x y px py].
      replace (580 + 20 / 2 - 531) with 59 by lra.
      replace (100 + 20 / 2 - 110) with 0 by lra. apply hypot_axis. lra. }
    rewrite pushFromCursor_hit by (rewrite Hh; unfold PUSH_RADIUS; lra).
    rewrite Hh. unfold pinnedRight, pinnedCursor, BALL_SIZE, PUSH_RADIUS, PUSH_FORCE.
    cbn [x y vx vy px py color]. apply ball_eq; lra. }
  rewrite H1.
  assert (H2 : collide (mkBall 580 100 (91 / 60) 0 (Some "red"%string)) pinnedLeft =
               (mkBall (1161 / 2) 100 (91 / 60 + 3 / 10) 0 (Some "red"%string),
                mkBall (1121 / 2) 100 (- (3 / 10)) 0 (Some "red"%string))).
  { assert (Hh : hypot (x (mkBall 580 100 (91 / 60) 0 (Some "red"%string)) - x pinnedLeft)
                       (y (mkBall 580 100 (91 / 60) 0 (Some "red"%string)) - y pinnedLeft)
                 = 19).
    { unfold pinnedLeft. cbn [x y].
      replace (580 - 561) with 19 by lra. replace (100 - 100) with 0 by lra.
      apply hypot_axis. lra. }
    rewrite collide_hit by (rewrite Hh; unfold BALL_SIZE; lra).
    rewrite Hh. unfold pinnedLeft, BALL_SIZE. cbn [x y vx vy color].
    f_equal; apply ball_eq; lra. }
  rewrite H2. cbn [fst snd].
  assert (H3 : pushFromCursor (Some pinnedCursor) false
                 (mkBall (1121 / 2) 100 (- (3 / 10)) 0 (Some "red"%string)) =
               mkBall (1121 / 2) 100 (- (3 / 10) + 221 / 120) 0 (Some "red"%string)).
  { assert (Hh : hypot (x (mkBall (1121 / 2) 100 (- (3 / 10)) 0 (Some "red"%string))
                        + BALL_SIZE / 2 - px pinnedCursor)
                       (y (mkBall (1121 / 2) 100 (- (3 / 10)) 0 (Some "red"%string))
                        + BALL_SIZE / 2 - py pinnedCursor) = 79 / 2).
    { unfold pinnedCursor, BALL_SIZE. cbn [x y px py].
      replace (1121 / 2 + 20 / 2 - 531) with (79 / 2) by lra.
      replace (100 + 20 / 2 - 110) with 0 by lra. apply hypot_axis. lra. }
    rewrite pushFromCursor_hit by (rewrite Hh; unfold PUSH_RADIUS; lra).
    rewrite Hh. unfold pinnedCursor, BALL_SIZE, PUSH_RADIUS, PUSH_FORCE.
    cbn [x y vx vy px py color]. apply ball_eq; lra. }
  rewrite H3. unfold overlap. rewrite Hd.
  unfold centerDistance. rewrite !x_settle, !y_settle. cbn [x y vx vy].
  unfold clamp, FIELD_WIDTH, FIELD_HEIGHT, BALL_SIZE.
  replace (Rltb (1161 / 2 + (91 / 60 + 3 / 10)) 0) with false
    by (symmetry; apply Rltb_false; lra).
  replace (Rltb (600 - 20) (1161 / 2 + (91 / 60 + 3 / 10))) with true
    by (symmetry; apply Rltb_true; lra).
  replace (Rltb (1121 / 2 + (- (3 / 10) + 221 / 120)) 0) with false
    by (symmetry; apply Rltb_false; lra).
  replace (Rltb (600 - 20) (1121 / 2 + (- (3 / 10) + 221 / 120))) with false
    by (symmetry; apply Rltb_false; lra).
  replace (Rltb (100 + 0) 0) with false by (symmetry; apply Rltb_false; lra).
  replace (Rltb (500 - 20) (100 + 0)) with false by (symmetry; apply Rltb_false; lra).
  replace (600 - 20 + 20 / 2 - (1121 / 2 + (- (3 / 10) + 221 / 120) + 20 / 2))
    with (2155 / 120) by lra.
  replace (100 + 0 + 20 / 2 - (100 + 0 + 20 / 2)) with 0 by lra.
  rewrite hypot_axis by lra. lra.
Qed.

(** C7, amended: for a batch of two balls at rest inside the arena whose
    center distance is strictly between 0 and BALL_SIZE, one step with no
    cursor strictly decreases their overlap. *)
Theorem overlap_decreases_at_rest (b o : Ball) (win : bool) :
  vx b = 0 -> vy b = 0 -> vx o = 0 -> vy o = 0 ->
  inArena b -> inArena o ->
  0 < centerDistance b o < BALL_SIZE ->
  exists b' o',
    stepBalls None win [b; o] = [b'; o'] /\ overlap b' o' < overlap b o.
Proof.
  intros Hbx Hby Hox Hoy [Hb1 Hb2] [Ho1 Ho2] Hd.
  rewrite stepBalls_two. cbn [pushFromCursor].
  assert (Hc : centerDistance b o = hypot (x b - x o) (y b - y o)).
  { unfold centerDistance. f_equal; ring. }
  rewrite Hc in Hd.
  rewrite collide_hit by exact Hd. cbn [fst snd].
  set (dx := x b - x o) in *. set (dy := y b - y o) in *.
  set (d := hypot dx dy) in *.
  eexists. eexists. split; [reflexivity|].
  unfold overlap. rewrite Hc. fold dx dy. fold d.
  apply Rplus_lt_compat_l, Ropp_lt_contravar.
  unfold centerDistance. rewrite !x_settle, !y_settle. cbn [x y vx vy].
  rewrite Hbx, Hby, Hox, Hoy.
  set (k := ((BALL_SIZE - d) / 2 + 3 / 10) / d).
  assert (Hk : 0 < k).
  { unfold k. apply Rdiv_lt_0_compat; [unfold BALL_SIZE in *; lra | lra]. }
  assert (Hdne : d <> 0) by lra.
  replace (x b + dx / d * (BALL_SIZE - d) / 2 + (0 + dx / d * (3 / 10)))
    with (x b + k * (x b - x o)) by (unfold k; fold dx; field; assumption).
  replace (x o - dx / d * (BALL_SIZE - d) / 2 + (0 - dx / d * (3 / 10)))
    with (x o - k * (x b - x o)) by (unfold k; fold dx; field; assumption).
  replace (y b + dy / d * (BALL_SIZE - d) / 2 + (0 + dy / d * (3 / 10)))
    with (y b + k * (y b - y o)) by (unfold k; fold dy; field; assumption).
  replace (y o - dy / d * (BALL_SIZE - d) / 2 + (0 - dy / d * (3 / 10)))
    with (y o - k * (y b - y o)) by (unfold k; fold dy; field; assumption).
  destruct (clamp_spread 0 (FIELD_WIDTH - BALL_SIZE) (x b) (x o) k Hb1 Ho1 Hk)
    as [Hxle Hxlt].
  destruct (clamp_spread 0 (FIELD_HEIGHT - BALL_SIZE) (y b) (y o) k Hb2 Ho2 Hk)
    as [Hyle Hylt].
  cbv zeta in Hxle, Hxlt, Hyle, Hylt.
  set (X := clamp 0 (FIELD_WIDTH - BALL_SIZE) (x b + k * (x b - x o))) in *.
  set (X' := clamp 0 (FIELD_WIDTH - BALL_SIZE) (x o - k * (x b - x o))) in *.
  set (Y := clamp 0 (FIELD_HEIGHT - BALL_SIZE) (y b + k * (y b - y o))) in *.
  set (Y' := clamp 0 (FIELD_HEIGHT - BALL_SIZE) (y o - k * (y b - y o))) in *.
  unfold d. apply hypot_mono_lt.
  replace (X + BALL_SIZE / 2 - (X' + BALL_SIZE / 2)) with (X - X') by ring.
  replace (Y + BALL_SIZE / 2 - (Y' + BALL_SIZE / 2)) with (Y - Y') by ring.
  fold dx dy in Hxle, Hxlt, Hyle, Hylt.
  pose proof (hypot_sq dx dy) as Hsq. fold d in Hsq.
  assert (Hdx : Rabs dx < 20).
  { unfold BALL_SIZE in Hd. apply Rabs_def1; nra. }
  assert (Hdy : Rabs dy < 20).
  { unfold BALL_SIZE in Hd. apply Rabs_def1; nra. }
  unfold FIELD_WIDTH, FIELD_HEIGHT, BALL_SIZE in Hxlt, Hylt.
  destruct (Req_dec dx 0) as [Hx0 | Hx0].
  - assert (Hy0 : dy <> 0) by (intros E; rewrite Hx0, E in Hsq; nra).
    assert (Hy : y b <> y o) by (unfold dy in Hy0; lra).
    specialize (Hylt Hy ltac:(lra)). lra.
  - assert (Hx : x b <> x o) by (unfold dx in Hx0; lra).
    specialize (Hxlt Hx ltac:(lra)). lra.
Qed.

Lemma overlap_decreases_at_rest_witness :
  exists b' o',
    stepBalls None false
      [mkBall 100 100 0 0 None; mkBall 110 100 0 0 None] = [b'; o'] /\
    overlap b' o' <
    overlap (mkBall 100 100 0 0 None) (mkBall 110 100 0 0 None).
Proof.
  apply overlap_decreases_at_rest; try reflexivity.
  - unfold inArena, FIELD_WIDTH, FIELD_HEIGHT, BALL_SIZE. cbn [x y]. lra.
  - unfold inArena, FIELD_WIDTH, FIELD_HEIGHT, BALL_SIZE. cbn [x y]. lra.
  - unfold centerDistance, BALL_SIZE. cbn [x y].
    replace (100 + 20 / 2 - (110 + 20 / 2)) with (- (10)) by lra.
    replace (100 + 20 / 2 - (100 + 20 / 2)) with 0 by lra.
    rewrite hypot_axis_neg by lra. lra.
Defined.

(** ** The spawned batch *)

Lemma nth_error_spawned random colorCount ballCount i :
  (i < ballCount)%nat ->
  nth_error (map (spawn random colorCount) (seq 0 ballCount)) i =
  Some (spawn random colorCount i).
Proof.
  intros H. rewrite nth_error_map, nth_error_seq.
  apply Nat.ltb_lt in H. now rewrite H.
Qed.

Lemma palette_defined i colorCount :
  (1 <= colorCount <= 6)%nat ->
  exists c, nth_error (firstn colorCount colors) (i mod colorCount) = Some c /\
            paletteAt i colorCount = Some c.
Proof.
  intros Hc. unfold paletteAt.
  assert (Hm : (i mod colorCount < colorCount)%nat) by (apply Nat.mod_upper_bound; lia).
  replace (colorCount =? 0)%nat with false by (symmetry; apply Nat.eqb_neq; lia).
  rewrite nth_error_firstn. apply Nat.ltb_lt in Hm as Hm'. rewrite Hm'.
  destruct (nth_error colors (i mod colorCount)) as [c|] eqn:E.
  - now exists c.
  - apply nth_error_None in E. simpl in E. lia.
Qed.

(** C4, as stated, fails: with 14 balls and 7 colors the count check
    passes, and the ball of index 6 reads [colors[6]], past the end of the
    palette: its color is [undefined]. *)
Lemma generateBalls_past_palette :
  (7 * 2 <= 14)%nat /\
  exists b,
    nth_error (snd (generateBalls 14 7 zeros)) 6 = Some b /\ color b = None.
Proof.
  split; [lia|]. exists (spawn zeros 7 6). split; reflexivity.
Qed.

(** C4, amended: when ballCount < colorCount * 2, [generateBalls] reports
    the error that names colorCount * 2 and returns the empty batch, and
    [startGame] records the error and keeps the session's batch.  When
    ballCount >= colorCount * 2 and 1 <= colorCount <= 6, it reports no error
    and returns exactly ballCount balls, the ball of index i with the
    color of index i mod colorCount among the first colorCount colors of the
    palette and with zero velocity. *)
Theorem generateBalls_spec (ballCount colorCount : nat) (random : nat -> R) :
  ((ballCount < colorCount * 2)%nat ->
   generateBalls ballCount colorCount random =
     (Some ("Error: For " ++ show colorCount ++ " colors, you need at least "
            ++ show (colorCount * 2) ++ " balls. Currently set: "
            ++ show ballCount ++ ".")%string, []) /\
   forall s,
     errorMessage (startGame ballCount colorCount random s) =
       fst (generateBalls ballCount colorCount random) /\
     ballsRef (startGame ballCount colorCount random s) = ballsRef s) /\
  ((colorCount * 2 <= ballCount)%nat -> (1 <= colorCount <= 6)%nat ->
   fst (generateBalls ballCount colorCount random) = None /\
   length (snd (generateBalls ballCount colorCount random)) = ballCount /\
   forall i, (i < ballCount)%nat ->
     exists b c,
       nth_error (snd (generateBalls ballCount colorCount random)) i = Some b /\
       nth_error (firstn colorCount colors) (i mod colorCount) = Some c /\
       color b = Some c /\ vx b = 0 /\ vy b = 0).
Proof.
  split.
  - intros H. unfold startGame, generateBalls.
    apply Nat.ltb_lt in H. rewrite H. split; [reflexivity|]. intros s. now split.
  - intros H Hc. unfold generateBalls.
    replace (ballCount <? colorCount * 2)%nat with false
      by (symmetry; apply Nat.ltb_ge; lia).
    cbn [fst snd]. split; [reflexivity|].
    split; [now rewrite length_map, length_seq|].
    intros i Hi. destruct (palette_defined i colorCount Hc) as [c [Hc1 Hc2]].
    exists (spawn random colorCount i), c.
    rewrite nth_error_spawned by assumption. auto.
Qed.

Lemma generateBalls_spec_witness :
  generateBalls 3 2 zeros =
    (Some "Error: For 2 colors, you need at least 4 balls. Currently set: 3."%string,
     []) /\
  length (snd (generateBalls 8 2 zeros)) = 8%nat.
Proof.
  split.
  - exact (proj1 (proj1 (generateBalls_spec 3 2 zeros) ltac:(simpl; lia))).
  - exact (proj1 (proj2 (proj2 (generateBalls_spec 8 2 zeros)
                           ltac:(simpl; lia) ltac:(lia)))).
Defined.

(** C10: when every call of [Math.random] answers in [0, 1), every ball of
    a freshly generated batch is inside the arena bounds and has zero
    velocity. *)
Theorem generateBalls_inArena (ballCount colorCount : nat) (random : nat -> R) :
  (forall k, 0 <= random k < 1) ->
  Forall (fun b => inArena b /\ vx b = 0 /\ vy b = 0 /\ speed b <= MAX_SPEED)
         (snd (generateBalls ballCount colorCount random)).
Proof.
  intros Hr. unfold generateBalls.
  destruct (ballCount <? colorCount * 2)%nat; cbn [snd]; [constructor|].
  apply Forall_forall. intros b Hb. apply in_map_iff in Hb as [i [<- _]].
  unfold inArena, spawn, speed, FIELD_WIDTH, FIELD_HEIGHT, BALL_SIZE, MAX_SPEED.
  cbn [x y vx vy].
  pose proof (Hr (2 * i)%nat) as H1. pose proof (Hr (2 * i + 1)%nat) as H2.
  repeat split; try nra.
  rewrite hypot_axis; lra.
Qed.

Lemma generateBalls_inArena_witness :
  Forall (fun b => inArena b /\ vx b = 0 /\ vy b = 0 /\ speed b <= MAX_SPEED)
         (snd (generateBalls 8 2 zeros)).
Proof.
  apply generateBalls_inArena. intros k. unfold zeros. lra.
Defined.

(** ** The traversal computes the cluster of its seed *)

Lemma near_spec a b : near a b = true <-> centerDistance a b <= GROUP_RADIUS.
Proof. unfold near, centerDistance. apply Rleb_true. Qed.

Lemma In_scan current visited group queue e :
  In e (fold_left (pushNear current visited) group queue) <->
  In e queue \/
  (In e group /\ has (fst e) visited = false /\ near (snd current) (snd e) = true).
Proof.
  revert queue. induction group as [|g group IH]; intros queue; simpl.
  - tauto.
  - rewrite IH. unfold pushNear.
    destruct (has (fst g) visited) eqn:Hg; simpl.
    + split; [tauto|]. intros [H | [[-> | H] H']]; try tauto.
      destruct H' as [H' _]. congruence.
    + destruct (near (snd current) (snd g)) eqn:Hn; simpl.
      * split; [intros [[<- | H] | H]; tauto|].
        intros [H | [[-> | H] H']]; tauto.
      * split; [tauto|]. intros [H | [[-> | H] H']]; try tauto.
        destruct H' as [_ H']. congruence.
Qed.

Lemma add_In r s visited : In r (add s visited) <-> r = s \/ In r visited.
Proof.
  rewrite <- !has_In, has_add, orb_true_iff, Nat.eqb_eq. tauto.
Qed.

Lemma add_NoDup r visited : NoDup visited -> NoDup (add r visited).
Proof.
  intros H. unfold add. destruct (has r visited) eqn:Hr; [assumption|].
  apply NoDup_app; [assumption | repeat constructor; intros [] |].
  intros a Ha [<- | []]. apply has_In in Ha. congruence.
Qed.

Section Traversal.

Variable group : list entity.
Variable seed : entity.
Hypothesis group_distinct : NoDup (map fst group).
Hypothesis seed_in : In seed group.

Lemma same_ref a b : In a group -> In b group -> fst a = fst b -> a = b.
Proof using group_distinct.
  clear seed_in. induction group as [|g l IH]; simpl; [tauto|].
  inversion group_distinct as [|? ? Hnot Hnd]; subst.
  intros [-> | Ha] [-> | Hb] E; auto.
  - exfalso. apply Hnot. rewrite E. now apply in_map.
  - exfalso. apply Hnot. rewrite <- E. now apply in_map.
Qed.

Lemma reach_in e : reach group seed e -> In e group.
Proof using seed_in. now intros [|a b _ Hb _]. Qed.

(** What holds of the queue and of the visited set at every test of
    [while (queue.length)]. *)
Record invariant (queue : list entity) (visited : list nat) : Prop := {
  visited_reached :
    forall r, In r visited -> exists e, In e group /\ fst e = r /\ reach group seed e;
  queue_reached : forall e, In e queue -> reach group seed e;
  visited_distinct : NoDup visited;
  seed_kept : In seed queue \/ In (fst seed) visited;
  neighbours_kept :
    forall a b, In a group -> In (fst a) visited -> In b group ->
      near (snd a) (snd b) = true -> In (fst b) visited \/ In b queue
}.

Lemma invariant_start : invariant [seed] [].
Proof using seed_in.
  constructor; simpl; try tauto.
  - intros e [<- | []]. constructor.
  - constructor.
Qed.

Lemma invariant_step current queue visited :
  invariant (current :: queue) visited ->
  invariant
    (fold_left (pushNear current (add (fst current) visited)) group queue)
    (add (fst current) visited).
Proof using group_distinct seed_in.
  intros [I1 I2 I3 I4 I5].
  assert (Hc : reach group seed current) by (apply I2; now left).
  assert (Hcin : In current group) by now apply reach_in.
  constructor.
  - intros r Hr. apply add_In in Hr as [-> | Hr]; [|now apply I1].
    now exists current.
  - intros e He. apply In_scan in He as [He | (He & _ & Hn)].
    + apply I2. now right.
    + apply reach_step with current; auto. now apply near_spec.
  - now apply add_NoDup.
  - destruct I4 as [[<- | H] | H].
    + right. apply add_In. now left.
    + left. apply In_scan. now left.
    + right. apply add_In. now right.
  - intros a b Ha Hva Hb Hn. apply add_In in Hva as [E | Hva].
    + apply (same_ref a current Ha Hcin) in E. subst a.
      destruct (has (fst b) (add (fst current) visited)) eqn:Hv.
      * left. now apply has_In.
      * right. apply In_scan. right. auto.
    + destruct (I5 a b Ha Hva Hb Hn) as [H | [<- | H]].
      * left. apply add_In. now right.
      * left. apply add_In. now left.
      * right. apply In_scan. now left.
Qed.

Lemma traverse_invariant queue visited :
  invariant queue visited -> invariant [] (traverse group queue visited).
Proof using group_distinct seed_in.
  funelim (traverse group queue visited); intros Hinv.
  - assumption.
  - match goal with IH : _ -> invariant [] _ |- _ => apply IH end.
    now apply invariant_step.
Qed.

(** The visited set the loop ends with holds exactly the references of
    the group members reachable from the seed. *)
Lemma traverse_reach e :
  In e group ->
  (has (fst e) (traverse group [seed] []) = true <-> reach group seed e).
Proof using group_distinct seed_in.
  intros He. destruct (traverse_invariant _ _ invariant_start) as [I1 _ _ I4 I5].
  rewrite has_In. split.
  - intros Hv. destruct (I1 _ Hv) as (e' & He' & E & Hr).
    now rewrite <- (same_ref e' e He' He E).
  - intros Hr. clear He. induction Hr as [|a b Ha IH Hb Hd].
    + destruct I4 as [[] | H]; assumption.
    + destruct (I5 a b (reach_in a Ha) IH Hb (proj2 (near_spec _ _) Hd))
        as [H | []]; assumption.
Qed.

Lemma traverse_distinct : NoDup (traverse group [seed] []).
Proof using group_distinct seed_in.
  now destruct (traverse_invariant _ _ invariant_start).
Qed.

Lemma traverse_refs r :
  In r (traverse group [seed] []) -> In r (map fst group).
Proof using group_distinct seed_in.
  destruct (traverse_invariant _ _ invariant_start) as [I1 _ _ _ _].
  intros Hr. destruct (I1 r Hr) as (e & He & <- & _). now apply in_map.
Qed.

(** [visited.size === colorBalls.length] says that the seed reaches
    every member. *)
Lemma traverse_full :
  length (traverse group [seed] []) = length group <->
  forall e, In e group -> reach group seed e.
Proof using group_distinct seed_in.
  split.
  - intros Hlen e He. apply traverse_reach; [assumption|]. apply has_In.
    apply (NoDup_length_incl (l' := map fst group) traverse_distinct).
    + rewrite Hlen, length_map. apply Nat.le_refl.
    + intros r. apply traverse_refs.
    + now apply in_map.
  - intros Hall. transitivity (length (map fst group)); [|apply length_map].
    apply Nat.le_antisymm.
    + apply NoDup_incl_length; [apply traverse_distinct|].
      intros r. apply traverse_refs.
    + apply NoDup_incl_length; [assumption|].
      intros r Hr. apply in_map_iff in Hr as (e & <- & He).
      apply has_In, traverse_reach; auto.
Qed.

(** [visited.size > 1] says that the seed reaches a member other than
    itself. *)
Lemma traverse_plural :
  (1 < length (traverse group [seed] []))%nat <->
  exists e, e <> seed /\ reach group seed e.
Proof using group_distinct seed_in.
  pose proof traverse_distinct as Hnd.
  assert (Hs : In (fst seed) (traverse group [seed] [])).
  { apply has_In, traverse_reach; [assumption | constructor]. }
  split.
  - intros Hlen.
    destruct (traverse group [seed] []) as [|r1 [|r2 rest]] eqn:E;
      simpl in Hlen; try lia.
    assert (Hex : exists r, In r (r1 :: r2 :: rest) /\ r <> fst seed).
    { destruct (Nat.eq_dec r1 (fst seed)) as [E1 | E1].
      - exists r2. split; [simpl; auto|]. intros E2.
        inversion Hnd as [|? ? Hnot _]. apply Hnot. rewrite E1, <- E2. now left.
      - exists r1. split; [now left | assumption]. }
    destruct Hex as (r & Hr & Hne). rewrite <- E in Hr.
    destruct (traverse_invariant _ _ invariant_start) as [I1 _ _ _ _].
    destruct (I1 r Hr) as (e & He & <- & Hre).
    exists e. split; [congruence | assumption].
  - intros (e & Hne & Hr).
    assert (He : In (fst e) (traverse group [seed] [])).
    { apply has_In, traverse_reach; [now apply reach_in | assumption]. }
    assert (Hdiff : fst e <> fst seed).
    { intros E. apply Hne. apply same_ref; auto. now apply reach_in. }
    destruct (traverse group [seed] []) as [|r1 [|r2 rest]]; simpl in *; lia.
Qed.

End Traversal.

(** ** The batch and its color groups *)

Lemma refs_fst balls : map fst (refs balls) = seq 0 (length balls).
Proof.
  unfold refs. generalize 0%nat as start.
  induction balls as [|b balls IH]; intros start; simpl; [reflexivity|].
  now rewrite IH.
Qed.

Lemma refs_snd balls : map snd (refs balls) = balls.
Proof.
  unfold refs. generalize 0%nat as start.
  induction balls as [|b balls IH]; intros start; simpl; [reflexivity|].
  now rewrite IH.
Qed.

Lemma refs_distinct balls : NoDup (map fst (refs balls)).
Proof. rewrite refs_fst. apply seq_NoDup. Qed.

Lemma filter_distinct (f : entity -> bool) l :
  NoDup (map fst l) -> NoDup (map fst (filter f l)).
Proof.
  induction l as [|e l IH]; simpl; intros H; [constructor|].
  inversion H as [|? ? Hnot Hnd]; subst.
  destruct (f e); simpl; auto. constructor; auto.
  intros Hin. apply Hnot. apply in_map_iff in Hin as (e' & E & He').
  apply filter_In in He' as [He' _]. rewrite <- E. now apply in_map.
Qed.

Lemma In_refs_ball e balls : In e (refs balls) -> In (snd e) balls.
Proof. intros H. rewrite <- (refs_snd balls) at 1. now apply in_map. Qed.

Lemma In_ball_refs b balls : In b balls -> exists r, In (r, b) (refs balls).
Proof.
  intros H. rewrite <- (refs_snd balls) in H.
  apply in_map_iff in H as ([r b'] & E & H). simpl in E. subst. now exists r.
Qed.

Lemma pushGroup_other key b groups k es :
  In (k, es) groups -> k <> key -> In (k, es) (pushGroup key b groups).
Proof.
  induction groups as [|[k0 es0] rest IH]; simpl; [tauto|].
  intros [E | H] Hne.
  - inversion E; subst. destruct (String.eqb key k) eqn:Hk.
    + apply String.eqb_eq in Hk. congruence.
    + now left.
  - destruct (String.eqb key k0); right; auto.
Qed.

Lemma pushGroup_own key b groups : exists es, In (key, es) (pushGroup key b groups).
Proof.
  induction groups as [|[k0 es0] rest [es IH]]; simpl.
  - exists [b]. now left.
  - destruct (String.eqb key k0) eqn:Hk.
    + apply String.eqb_eq in Hk. subst. eexists. now left.
    + exists es. now right.
Qed.

Lemma pushGroup_keys key b groups k :
  In k (map fst (pushGroup key b groups)) <-> k = key \/ In k (map fst groups).
Proof.
  induction groups as [|[k0 es0] rest IH]; simpl.
  - split; intros [H | []]; left; congruence.
  - destruct (String.eqb key k0) eqn:Hk; simpl.
    + apply String.eqb_eq in Hk. subst. split; [tauto|].
      intros [-> | H]; auto.
    + rewrite IH. tauto.
Qed.

Lemma pushGroup_distinct key b groups :
  NoDup (map fst groups) -> NoDup (map fst (pushGroup key b groups)).
Proof.
  induction groups as [|[k0 es0] rest IH]; simpl; intros H.
  - repeat constructor. intros [].
  - inversion H as [|? ? Hnot Hnd]; subst.
    destruct (String.eqb key k0) eqn:Hk; simpl.
    + now constructor.
    + constructor; auto. rewrite pushGroup_keys. intros [E | Hin]; auto.
      subst. now rewrite String.eqb_refl in Hk.
Qed.

Lemma pushGroup_In key b groups k es :
  NoDup (map fst groups) ->
  In (k, es) (pushGroup key b groups) ->
  (k <> key /\ In (k, es) groups) \/
  (k = key /\
   ((exists es0, In (key, es0) groups /\ es = es0 ++ [b]) \/
    (~ In key (map fst groups) /\ es = [b]))).
Proof.
  induction groups as [|[k0 es0] rest IH]; simpl; intros Hnd.
  - intros [E | []]. inversion E; subst. right. split; auto.
  - inversion Hnd as [|? ? Hnot Hnd']; subst.
    destruct (String.eqb key k0) eqn:Hk; simpl.
    + apply String.eqb_eq in Hk. subst k0. intros [E | H].
      * inversion E; subst. right. split; auto. left. exists es0. auto.
      * left. split; auto. intros ->. apply Hnot.
        change key with (fst (key, es)). now apply in_map.
    + apply String.eqb_neq in Hk. intros [E | H].
      * inversion E; subst. left. split; auto.
      * destruct (IH Hnd' H) as [[Hne Hin] | [-> [(es1 & Hin & ->) | [Hnin ->]]]].
        -- left. auto.
        -- right. split; auto. left. exists es1. auto.
        -- right. split; auto. right. split; auto. intros [E | Hin]; auto.
Qed.

Lemma grouped_push done groups b :
  grouped done groups ->
  grouped (done ++ [b]) (pushGroup (keyOf b) b groups).
Proof.
  intros [Hnd Hmem Hfound]. constructor.
  - now apply pushGroup_distinct.
  - intros k es Hin. rewrite filter_app. simpl.
    destruct (pushGroup_In _ _ _ _ _ Hnd Hin)
      as [[Hne Hin'] | [-> [(es0 & Hin' & ->) | [Hnin ->]]]].
    + destruct (Hmem _ _ Hin') as [-> Hnil].
      replace (String.eqb (keyOf b) k) with false
        by (symmetry; apply String.eqb_neq; congruence).
      now rewrite app_nil_r.
    + destruct (Hmem _ _ Hin') as [-> Hnil]. rewrite String.eqb_refl.
      split; [reflexivity|]. now destruct (filter _ done).
    + rewrite String.eqb_refl.
      assert (Hnone : filter (fun e => String.eqb (keyOf e) (keyOf b)) done = []).
      { destruct (filter _ done) as [|e l] eqn:E; [reflexivity|]. exfalso.
        assert (He : In e (filter (fun e => String.eqb (keyOf e) (keyOf b)) done))
          by (rewrite E; now left).
        apply filter_In in He as [He Hk]. apply String.eqb_eq in Hk.
        destruct (Hfound e He) as [es Hes]. apply Hnin. rewrite <- Hk.
        change (keyOf e) with (fst (keyOf e, es)). now apply in_map. }
      rewrite Hnone. split; [reflexivity | discriminate].
  - intros e He. apply in_app_iff in He as [He | [<- | []]].
    + destruct (String.eqb (keyOf e) (keyOf b)) eqn:Hk.
      * apply String.eqb_eq in Hk. rewrite Hk. apply pushGroup_own.
      * apply String.eqb_neq in Hk. destruct (Hfound e He) as [es Hes].
        exists es. now apply pushGroup_other.
    + apply pushGroup_own.
Qed.

Lemma groupBalls_grouped l : grouped l (groupBalls l).
Proof.
  unfold groupBalls. induction l as [|b l IH] using rev_ind.
  - constructor; simpl; try tauto. constructor.
  - rewrite fold_left_app. simpl. now apply grouped_push.
Qed.

(** ** The win predicate *)

Lemma connected_spec group :
  NoDup (map fst group) -> (connected group = true <-> clustered group).
Proof.
  intros Hnd. destruct group as [|first rest]; simpl.
  - split; [discriminate|]. intros (f & r & E & _). discriminate.
  - rewrite Nat.eqb_eq.
    rewrite (traverse_full (first :: rest) first Hnd (or_introl eq_refl)).
    split.
    + intros H. now exists first, rest.
    + intros (f & r & E & H). inversion E; subst. exact H.
Qed.

Lemma colorEqb_eq a b : colorEqb a b = true <-> a = b.
Proof.
  destruct a as [s|], b as [t|]; simpl; try (split; congruence).
  rewrite String.eqb_eq. split; congruence.
Qed.

Lemma colorEqb_sym a b : colorEqb a b = colorEqb b a.
Proof.
  destruct a as [s|], b as [t|]; simpl; auto. apply String.eqb_sym.
Qed.

Lemma clash_sym p q : clash p q = clash q p.
Proof.
  unfold clash. rewrite colorEqb_sym. f_equal. f_equal.
  rewrite <- hypot_sym. f_equal; ring.
Qed.

Lemma clash_self p : clash p p = false.
Proof.
  unfold clash. replace (colorEqb (ccolor p) (ccolor p)) with true; [reflexivity|].
  symmetry. now apply colorEqb_eq.
Qed.

Lemma clash_center a b :
  clash (center a) (center b) = false <->
  (color a <> color b -> GROUP_RADIUS < centerDistance a b).
Proof.
  unfold clash, center, centerDistance. cbn [cx cy ccolor].
  destruct (colorEqb (color a) (color b)) eqn:Hc; simpl.
  - apply colorEqb_eq in Hc. tauto.
  - rewrite Rleb_false. split; [tauto|]. intros H. apply H.
    intros E. apply colorEqb_eq in E. congruence.
Qed.

Lemma pairLoop_spec positions :
  pairLoop positions = true <->
  forall p q, In p positions -> In q positions -> clash p q = false.
Proof.
  induction positions as [|p0 rest IH]; simpl.
  - split; [intros _ p q [] | reflexivity].
  - rewrite andb_true_iff, forallb_forall, IH. split.
    + intros [Hp Hrest] p q [<- | Hp'] [<- | Hq'].
      * apply clash_self.
      * specialize (Hp q Hq'). now destruct (clash p0 q).
      * rewrite clash_sym. specialize (Hp p Hp'). now destruct (clash p0 p).
      * now apply Hrest.
    + intros H. split.
      * intros q Hq. rewrite (H p0 q); auto.
      * intros p q Hp Hq. apply H; auto.
Qed.

Lemma pairLoop_noClash balls : pairLoop (map center balls) = true <-> noClash balls.
Proof.
  rewrite pairLoop_spec. unfold noClash. split.
  - intros H a b Ha Hb. apply clash_center. apply H; now apply in_map.
  - intros H p q Hp Hq.
    apply in_map_iff in Hp as (a & <- & Ha). apply in_map_iff in Hq as (b & <- & Hb).
    apply clash_center. now apply H.
Qed.

Lemma groups_allClustered balls :
  forallb (fun g => connected (snd g)) (groupBalls (refs balls)) = true <->
  allClustered balls.
Proof.
  destruct (groupBalls_grouped (refs balls)) as [_ Hmem Hfound].
  assert (Hnd : forall k, NoDup (map fst (colorGroup balls k))).
  { intros k. apply filter_distinct, refs_distinct. }
  rewrite forallb_forall. unfold allClustered. split.
  - intros H e He. destruct (Hfound e He) as [es Hes].
    specialize (H _ Hes). simpl in H.
    destruct (Hmem _ _ Hes) as [-> _].
    now apply (connected_spec _ (Hnd (keyOf e))).
  - intros H [k es] Hin. simpl. destruct (Hmem _ _ Hin) as [E Hne].
    assert (Hex : exists e, In e (refs balls) /\ keyOf e = k).
    { destruct es as [|e es']; [congruence|].
      assert (He : In e (filter (fun e => String.eqb (keyOf e) k) (refs balls)))
        by (rewrite <- E; now left).
      apply filter_In in He as [He Hk]. apply String.eqb_eq in Hk. now exists e. }
    destruct Hex as (e & He & <-). rewrite E.
    apply (connected_spec _ (Hnd (keyOf e))). now apply H.
Qed.

(** C1, as stated, fails on the empty batch: there is no color group and
    no pair of balls, so both conditions hold, and [checkWin] returns
    false. *)
Lemma empty_batch_vacuous :
  checkWin [] = false /\ allClustered [] /\ noClash [].
Proof.
  split; [reflexivity|]. split.
  - intros e [].
  - intros a b [].
Qed.

(** C1, amended: on a batch that is not empty, [checkWin] returns true if
    and only if, in every color group, the traversal seeded at the group's
    first member reaches every member along edges of length at most
    GROUP_RADIUS, and no two balls of different colors have centers within
    GROUP_RADIUS; on the empty batch it returns false. *)
Theorem checkWin_spec (balls : list Ball) :
  (checkWin balls = true <-> balls <> [] /\ allClustered balls /\ noClash balls) /\
  (forall key first rest,
     colorGroup balls key = first :: rest ->
     (connected (colorGroup balls key) = true <->
      forall e, In e (colorGroup balls key) ->
        has (fst e) (traverse (colorGroup balls key) [first] []) = true)).
Proof.
  split.
  - unfold checkWin. destruct balls as [|b balls].
    + simpl. split; [discriminate | intros [H _]; congruence].
    + cbn [length Nat.eqb].
      destruct (forallb _ (groupBalls (refs (b :: balls)))) eqn:Hg.
      * apply groups_allClustered in Hg. rewrite pairLoop_noClash.
        split; [intros H; repeat split; auto; discriminate | tauto].
      * split; [discriminate|]. intros (_ & Hc & _).
        apply groups_allClustered in Hc. congruence.
  - intros key first rest E.
    assert (Hnd : NoDup (map fst (colorGroup balls key)))
      by apply filter_distinct, refs_distinct.
    assert (Hin : In first (colorGroup balls key)) by (rewrite E; now left).
    rewrite (connected_spec _ Hnd). split.
    + intros (f & r & E' & H) e He. rewrite E in E'. inversion E'; subst f r.
      apply (traverse_reach _ first Hnd Hin e He). now apply H.
    + intros H. exists first, rest. split; [assumption|]. intros e He.
      apply (traverse_reach _ first Hnd Hin e He). now apply H.
Qed.

(** ** The highlight predicate *)

(** [getHighlight] on a ball of the batch, once [sameColorBalls] is
    known. *)
Lemma getHighlight_visited balls ball first rest :
  In ball (refs balls) ->
  sameColorGroup balls ball = first :: rest ->
  getHighlight balls ball =
  negb (length (first :: rest) <? 2)%nat
  && (has (fst ball) (traverse (first :: rest) [first] [])
      && (1 <? length (traverse (first :: rest) [first] []))%nat).
Proof.
  intros Hin E. unfold getHighlight. fold (sameColorGroup balls ball).
  destruct balls as [|b0 balls]; [destruct Hin|]. rewrite E.
  cbn [length Nat.eqb]. destruct rest as [|e rest']; reflexivity.
Qed.

Lemma hypot_axis_abs a : hypot a 0 = Rabs a.
Proof.
  unfold Rabs. destruct (Rcase_abs a).
  - apply hypot_axis_neg. lra.
  - apply hypot_axis. lra.
Qed.

(** C5, as stated, fails: the second and third balls form a cluster of
    two, and the second is not highlighted, because the traversal starts
    at the first ball of the color, which reaches neither. *)
Lemma getHighlight_misses_cluster :
  let ball := (1%nat, mkBall 300 0 0 0 (Some "red"%string)) in
  In ball (refs strayFirst) /\
  inSomeCluster strayFirst ball /\
  getHighlight strayFirst ball = false.
Proof.
  intros ball.
  assert (Hg : sameColorGroup strayFirst ball = refs strayFirst) by reflexivity.
  assert (Hin : In ball (refs strayFirst)) by (simpl; auto).
  split; [assumption|]. split.
  - exists (2%nat, mkBall 350 0 0 0 (Some "red"%string)).
    split; [intros E; unfold ball in E; discriminate E|]. rewrite Hg.
    apply reach_step with ball; [constructor | simpl; auto |].
    unfold centerDistance, ball, BALL_SIZE, GROUP_RADIUS. cbn [snd x y].
    replace (300 + 20 / 2 - (350 + 20 / 2)) with (- (50)) by lra.
    replace (0 + 20 / 2 - (0 + 20 / 2)) with 0 by lra.
    rewrite hypot_axis_neg; lra.
  - destruct (getHighlight strayFirst ball) eqn:E; [|reflexivity]. exfalso.
    rewrite (getHighlight_visited _ _ _ _ Hin Hg) in E.
    apply andb_true_iff in E as [_ E]. apply andb_true_iff in E as [E _].
    apply (traverse_reach (refs strayFirst) _ (refs_distinct strayFirst)
             (or_introl eq_refl) ball Hin) in E.
    rename E into Hr.
    assert (Hx : forall e,
      reach (refs strayFirst) (0%nat, mkBall 0 0 0 0 (Some "red"%string)) e ->
      x (snd e) = 0).
    { intros e He. induction He as [|a b Ha IH Hb Hd]; [reflexivity|].
      unfold centerDistance, BALL_SIZE, GROUP_RADIUS in Hd. rewrite IH in Hd.
      simpl in Hb. destruct Hb as [<- | [<- | [<- | []]]]; cbn [snd x y] in *;
        [reflexivity | exfalso | exfalso].
      - replace (0 + 20 / 2 - (300 + 20 / 2)) with (- (300)) in Hd by lra.
        replace (y (snd a) + 20 / 2 - (0 + 20 / 2)) with (y (snd a)) in Hd by lra.
        apply hypot_le_iff in Hd; nra.
      - replace (0 + 20 / 2 - (350 + 20 / 2)) with (- (350)) in Hd by lra.
        replace (y (snd a) + 20 / 2 - (0 + 20 / 2)) with (y (snd a)) in Hd by lra.
        apply hypot_le_iff in Hd; nra. }
    specialize (Hx _ Hr). unfold ball in Hx. cbn [snd x] in Hx. lra.
Qed.

(** C5, amended: a ball of the batch is highlighted if and only if the
    traversal seeded at the first ball of its color, along edges of length
    at most GROUP_RADIUS between balls of that color, reaches it and reaches
    at least one ball other than the seed.  A cluster of two that holds the
    first ball of its color is highlighted; one that the first ball does
    not reach is not. *)
Theorem getHighlight_spec (balls : list Ball) (ball : entity) :
  In ball (refs balls) ->
  (getHighlight balls ball = true <-> inSeedCluster balls ball).
Proof.
  intros Hin. unfold inSeedCluster.
  assert (Hnd : NoDup (map fst (sameColorGroup balls ball)))
    by apply filter_distinct, refs_distinct.
  assert (Hball : In ball (sameColorGroup balls ball)).
  { apply filter_In. split; [assumption|]. now apply colorEqb_eq. }
  destruct (sameColorGroup balls ball) as [|first rest] eqn:E; [destruct Hball|].
  rewrite (getHighlight_visited _ _ _ _ Hin E).
  assert (Hfirst : In first (first :: rest)) by now left.
  rewrite !andb_true_iff, negb_true_iff, Nat.ltb_ge, Nat.ltb_lt.
  rewrite (traverse_reach _ first Hnd Hfirst ball Hball).
  rewrite (traverse_plural _ first Hnd Hfirst).
  split.
  - intros (_ & H1 & H2). now exists first, rest.
  - intros (f & r & E' & H1 & other & Hne & H2). inversion E'; subst f r.
    split; [|split; [assumption | now exists other]].
    pose proof (reach_in _ _ Hfirst _ H2) as Hin2.
    destruct rest as [|e rest']; [|simpl; lia].
    destruct Hin2 as [<- | []]. congruence.
Qed.

Lemma getHighlight_spec_witness :
  getHighlight redPair (1%nat, mkBall 50 0 0 0 (Some "red"%string)) = true.
Proof.
  assert (Hin : In (1%nat, mkBall 50 0 0 0 (Some "red"%string)) (refs redPair))
    by (simpl; auto).
  apply (proj2 (getHighlight_spec redPair _ Hin)).
  assert (Hr : reach (refs redPair) (0%nat, mkBall 0 0 0 0 (Some "red"%string))
                     (1%nat, mkBall 50 0 0 0 (Some "red"%string))).
  { apply reach_step with (0%nat, mkBall 0 0 0 0 (Some "red"%string));
      [constructor | simpl; auto |].
    unfold centerDistance, BALL_SIZE, GROUP_RADIUS. cbn [snd x y].
    replace (0 + 20 / 2 - (50 + 20 / 2)) with (- (50)) by lra.
    replace (0 + 20 / 2 - (0 + 20 / 2)) with 0 by lra.
    rewrite hypot_axis_neg; lra. }
  exists (0%nat, mkBall 0 0 0 0 (Some "red"%string)),
         [(1%nat, mkBall 50 0 0 0 (Some "red"%string))].
  split; [reflexivity|]. split; [exact Hr|].
  exists (1%nat, mkBall 50 0 0 0 (Some "red"%string)).
  split; [discriminate | exact Hr].
Defined.

Lemma checkWin_spec_witness : checkWin sortedBatch = true.
Proof.
  apply (proj2 (proj1 (checkWin_spec sortedBatch))).
  split; [discriminate|]. split.
  - assert (Hred : clustered (colorGroup sortedBatch "red")).
    { exists (0%nat, mkBall 0 0 0 0 (Some "red"%string)),
             [(2%nat, mkBall 50 0 0 0 (Some "red"%string))].
      split; [reflexivity|].
      intros e [<- | [<- | []]]; [constructor|].
      apply reach_step with (0%nat, mkBall 0 0 0 0 (Some "red"%string));
        [constructor | simpl; auto |].
      unfold centerDistance, BALL_SIZE, GROUP_RADIUS. cbn [snd x y].
      replace (0 + 20 / 2 - (50 + 20 / 2)) with (- (50)) by lra.
      replace (0 + 20 / 2 - (0 + 20 / 2)) with 0 by lra.
      rewrite hypot_axis_neg; lra. }
    assert (Hblue : clustered (colorGroup sortedBatch "blue")).
    { exists (1%nat, mkBall 300 0 0 0 (Some "blue"%string)),
             [(3%nat, mkBall 350 0 0 0 (Some "blue"%string))].
      split; [reflexivity|].
      intros e [<- | [<- | []]]; [constructor|].
      apply reach_step with (1%nat, mkBall 300 0 0 0 (Some "blue"%string));
        [constructor | simpl; auto |].
      unfold centerDistance, BALL_SIZE, GROUP_RADIUS. cbn [snd x y].
      replace (300 + 20 / 2 - (350 + 20 / 2)) with (- (50)) by lra.
      replace (0 + 20 / 2 - (0 + 20 / 2)) with 0 by lra.
      rewrite hypot_axis_neg; lra. }
    intros e [<- | [<- | [<- | [<- | []]]]]; assumption.
  - intros a b Ha Hb Hc.
    unfold centerDistance, BALL_SIZE, GROUP_RADIUS.
    simpl in Ha, Hb.
    destruct Ha as [<- | [<- | [<- | [<- | []]]]];
    destruct Hb as [<- | [<- | [<- | [<- | []]]]];
    cbn [x y color] in *; try congruence;
    match goal with |- _ < hypot ?u ?v =>
      replace v with 0 by lra; rewrite hypot_axis_abs;
      unfold Rabs; destruct (Rcase_abs u); lra
    end.
Defined.

(** * Further properties of the integrator *)

Lemma hypot_scale k a b : 0 <= k -> hypot (a * k) (b * k) = k * hypot a b.
Proof.
  intros Hk. unfold hypot.
  replace (a * k * (a * k) + b * k * (b * k)) with (k * k * (a * a + b * b)) by ring.
  rewrite sqrt_mult by (try apply sum_sq_nonneg; nra).
  now rewrite sqrt_square.
Qed.

Lemma hypot_zero : hypot 0 0 = 0.
Proof. apply hypot_axis. lra. Qed.


(** ** The batch through a step *)

Lemma setAt_same i b balls : nth_error balls i = Some b -> setAt i b balls = balls.
Proof.
  revert i. induction balls as [|a balls IH]; intros [|i] H; simpl in *;
    try discriminate.
  - congruence.
  - now rewrite IH.
Qed.

Lemma map_color_setAt i b b' balls :
  nth_error balls i = Some b -> color b' = color b ->
  map color (setAt i b' balls) = map color balls.
Proof.
  revert i. induction balls as [|a balls IH]; intros [|i] H Hc; simpl in *;
    try discriminate.
  - congruence.
  - now rewrite (IH i).
Qed.

Lemma map_color_updateAt i f balls :
  (forall b, color (f b) = color b) ->
  map color (updateAt i f balls) = map color balls.
Proof.
  intros Hf. unfold updateAt. destruct (nth_error balls i) as [b|] eqn:E; auto.
  now apply map_color_setAt with b.
Qed.

Lemma color_collide b o :
  color (fst (collide b o)) = color b /\ color (snd (collide b o)) = color o.
Proof. unfold collide. destruct (_ && _); auto. Qed.

Lemma map_color_collideAt i j balls :
  i <> j -> map color (collideAt i j balls) = map color balls.
Proof.
  intros Hne. unfold collideAt.
  destruct (nth_error balls i) as [b|] eqn:Ei; auto.
  destruct (nth_error balls j) as [o|] eqn:Ej; auto.
  destruct (color_collide b o) as [Hb Ho].
  destruct (collide b o) as [b' o']. cbn [fst snd] in *.
  rewrite map_color_setAt with (b := o); auto.
  - now apply map_color_setAt with b.
  - rewrite nth_error_setAt_ne; auto.
Qed.

Lemma color_settle b : color (settle b) = color b.
Proof.
  unfold settle, bounce, bounceBottom, bounceTop, bounceRight, bounceLeft,
    limitSpeed, move.
  repeat match goal with |- context [Rltb ?u ?v] =>
    destruct (Rltb u v); cbn [x y vx vy color] end; reflexivity.
Qed.

Lemma color_pushFromCursor cursor win b : color (pushFromCursor cursor win b) = color b.
Proof.
  unfold pushFromCursor. destruct cursor; auto. destruct (negb win); auto.
  destruct (_ && _); auto.
Qed.

Lemma map_color_frameBody cursor win balls i :
  map color (frameBody cursor win balls i) = map color balls.
Proof.
  unfold frameBody. rewrite map_color_updateAt by apply color_settle.
  rewrite <- (map_color_updateAt i (pushFromCursor cursor win) balls)
    by apply color_pushFromCursor.
  generalize (updateAt i (pushFromCursor cursor win) balls) as bs.
  pose proof (seq_above i (length balls - S i)) as Hjs.
  revert Hjs. generalize (seq (S i) (length balls - S i)) as js.
  induction js as [|j js IH]; intros Hjs bs; simpl; [reflexivity|].
  inversion Hjs; subst. rewrite IH by assumption.
  apply map_color_collideAt. lia.
Qed.

(** X6: a step of the integrator keeps the number of balls and the color
    of every ball, whatever the cursor and the won flag. *)
Theorem stepBalls_keeps_colors (cursor : option Position) (win : bool)
    (balls : list Ball) :
  length (stepBalls cursor win balls) = length balls /\
  map color (stepBalls cursor win balls) = map color balls.
Proof.
  split; [apply stepBalls_length|].
  unfold stepBalls. generalize (seq 0 (length balls)) as js. intros js.
  revert balls. induction js as [|j js IH]; intros balls; simpl; [reflexivity|].
  now rewrite IH, map_color_frameBody.
Qed.

Lemma updateAt_fix i f balls :
  (forall b, nth_error balls i = Some b -> f b = b) -> updateAt i f balls = balls.
Proof.
  intros H. unfold updateAt. destruct (nth_error balls i) as [b|] eqn:E; auto.
  rewrite (H b eq_refl). now apply setAt_same.
Qed.

Lemma collide_miss b o :
  BALL_SIZE <= centerDistance b o \/ centerDistance b o = 0 -> collide b o = (b, o).
Proof.
  assert (Hc : centerDistance b o = hypot (x b - x o) (y b - y o)).
  { unfold centerDistance. f_equal; ring. }
  rewrite Hc. unfold collide. intros [H | H].
  - apply Rltb_false in H. now rewrite H.
  - assert (H0 : Rltb 0 (hypot (x b - x o) (y b - y o)) = false)
      by (apply Rltb_false; lra).
    now rewrite H0, andb_false_r.
Qed.

Lemma collideAt_miss i j balls :
  i <> j -> separated balls -> collideAt i j balls = balls.
Proof.
  intros Hne Hsep. unfold collideAt.
  destruct (nth_error balls i) as [b|] eqn:Ei; auto.
  destruct (nth_error balls j) as [o|] eqn:Ej; auto.
  rewrite (collide_miss b o) by (apply (Hsep i j); auto).
  rewrite (setAt_same i b balls Ei). now apply setAt_same.
Qed.

Lemma settle_rest b : atRest b -> inArena b -> settle b = b.
Proof.
  intros [Hx Hy] Ha.
  assert (Hm : move b = b).
  { unfold move. destruct b as [bx by_ bvx bvy c]. cbn [x y vx vy color] in *.
    subst. apply ball_eq; unfold FRICTION; lra. }
  rewrite settle_free; rewrite Hm; auto.
  unfold speed. rewrite Hx, Hy, hypot_zero. unfold MAX_SPEED. lra.
Qed.

(** X7: a batch of balls at rest, inside the arena, no two of them in
    collision range, is left as it is by a step that applies no cursor force
    (no cursor, or a won session). *)
Theorem stepBalls_rest (cursor : option Position) (win : bool) (balls : list Ball) :
  cursor = None \/ win = true ->
  Forall atRest balls -> Forall inArena balls -> separated balls ->
  stepBalls cursor win balls = balls.
Proof.
  intros Hcur Hrest Harena Hsep.
  assert (Hpush : forall b, pushFromCursor cursor win b = b).
  { intros b. destruct Hcur as [-> | ->]; [reflexivity | apply pushFromCursor_won]. }
  assert (Hbody : forall i, frameBody cursor win balls i = balls).
  { intros i. unfold frameBody.
    rewrite (updateAt_fix i (pushFromCursor cursor win)) by (intros; apply Hpush).
    assert (Hfold : fold_left (fun bs j => collideAt i j bs)
                      (seq (S i) (length balls - S i)) balls = balls).
    { pose proof (seq_above i (length balls - S i)) as Hjs.
      revert Hjs. generalize (seq (S i) (length balls - S i)) as js.
      induction js as [|j js IH]; intros Hjs; simpl; [reflexivity|].
      inversion Hjs; subst. rewrite collideAt_miss by (auto; lia). now apply IH. }
    rewrite Hfold. apply updateAt_fix. intros b Hb.
    apply nth_error_In in Hb.
    apply settle_rest; [eapply Forall_forall in Hrest | eapply Forall_forall in Harena];
      eauto. }
  unfold stepBalls. generalize (seq 0 (length balls)) as js.
  induction js as [|j js IH]; simpl; [reflexivity|]. now rewrite Hbody.
Qed.

Lemma stepBalls_rest_witness :
  stepBalls None false
    [mkBall 100 100 0 0 None; mkBall 200 100 0 0 None] =
  [mkBall 100 100 0 0 None; mkBall 200 100 0 0 None].
Proof.
  apply stepBalls_rest.
  - now left.
  - repeat constructor.
  - repeat constructor; unfold FIELD_WIDTH, FIELD_HEIGHT, BALL_SIZE; cbn [x y]; lra.
  - intros i j b o Hne Hi Hj. left.
    assert (Hd : forall p q, p <> q -> (p = 100 \/ p = 200) -> (q = 100 \/ q = 200) ->
                 20 <= hypot (p + 20 / 2 - (q + 20 / 2)) 0).
    { intros p q Hpq [-> | ->] [-> | ->]; try lra.
      - replace (100 + 20 / 2 - (200 + 20 / 2)) with (- (100)) by lra.
        rewrite hypot_axis_neg; lra.
      - replace (200 + 20 / 2 - (100 + 20 / 2)) with 100 by lra.
        rewrite hypot_axis; lra. }
    unfold centerDistance, BALL_SIZE.
    destruct i as [|[|i]], j as [|[|j]]; simpl in Hi, Hj;
      try (destruct i; discriminate); try (destruct j; discriminate);
      try congruence;
      inversion Hi; inversion Hj; subst; cbn [x y];
      replace (100 + 20 / 2 - (100 + 20 / 2)) with 0 by lra;
      apply Hd; lra.
Defined.

(** * Further properties of the connectivity analyzer *)

(** X8: after [checkWin] has filed the batch, [groups] holds under a key
    exactly the balls of that color key, in batch order, and holds no empty
    array; no key appears twice. *)
Theorem groupBalls_lookup (balls : list Ball) :
  NoDup (map fst (groupBalls (refs balls))) /\
  forall key colorBalls,
    In (key, colorBalls) (groupBalls (refs balls)) <->
    colorBalls = colorGroup balls key /\ colorBalls <> [].
Proof.
  destruct (groupBalls_grouped (refs balls)) as [Hnd Hmem Hfound].
  split; [assumption|]. intros key es. split.
  - apply Hmem.
  - intros [-> Hne]. unfold colorGroup in *.
    destruct (filter _ (refs balls)) as [|e l] eqn:E; [congruence|].
    assert (He : In e (filter (fun e => String.eqb (keyOf e) key) (refs balls)))
      by (rewrite E; now left).
    apply filter_In in He as [He Hk]. apply String.eqb_eq in Hk.
    destruct (Hfound e He) as [es Hes]. rewrite Hk in Hes.
    destruct (Hmem _ _ Hes) as [Ees _]. rewrite E in Ees. now subst es.
Qed.

Lemma centerDistance_sym a b : centerDistance a b = centerDistance b a.
Proof. unfold centerDistance. rewrite <- hypot_sym. f_equal; ring. Qed.

Lemma reach_trans group a b c :
  reach group a b -> reach group b c -> reach group a c.
Proof.
  intros Hab Hbc. induction Hbc as [|u v Hu IH Hv Hd]; [assumption|].
  now apply reach_step with u.
Qed.

Lemma reach_sym group a b :
  In a group -> reach group a b -> reach group b a.
Proof.
  intros Ha Hab. induction Hab as [|u v Hu IH Hv Hd]; [constructor|].
  apply reach_trans with u; [|assumption].
  apply reach_step with v; [constructor | now apply reach_in with a |].
  now rewrite centerDistance_sym.
Qed.

(** X9: in a group of distinct balls, two seeds of which one reaches the
    other give visited sets with the same members: the cluster the
    traversal finds does not depend on which of its members seeds it. *)
Theorem traverse_seed_free (group : list entity) (a b e : entity) :
  NoDup (map fst group) -> In a group -> In e group ->
  reach group a b ->
  has (fst e) (traverse group [a] []) = has (fst e) (traverse group [b] []).
Proof.
  intros Hnd Ha He Hab.
  assert (Hb : In b group) by now apply reach_in with a.
  pose proof (traverse_reach group a Hnd Ha e He) as Ra.
  pose proof (traverse_reach group b Hnd Hb e He) as Rb.
  destruct (has (fst e) (traverse group [a] [])) eqn:Ea;
    destruct (has (fst e) (traverse group [b] [])) eqn:Eb; try reflexivity.
  - assert (Hr : reach group b e).
    { apply reach_trans with a; [now apply reach_sym | now apply Ra]. }
    apply Rb in Hr. congruence.
  - assert (Hr : reach group a e).
    { apply reach_trans with b; [assumption | now apply Rb]. }
    apply Ra in Hr. congruence.
Qed.

Lemma traverse_seed_free_witness :
  has 1%nat (traverse (refs redPair) [(0%nat, mkBall 0 0 0 0 (Some "red"%string))] []) =
  has 1%nat (traverse (refs redPair) [(1%nat, mkBall 50 0 0 0 (Some "red"%string))] []).
Proof.
  apply (traverse_seed_free (refs redPair)
           (0%nat, mkBall 0 0 0 0 (Some "red"%string))
           (1%nat, mkBall 50 0 0 0 (Some "red"%string))
           (1%nat, mkBall 50 0 0 0 (Some "red"%string))).
  - apply refs_distinct.
  - simpl; auto.
  - simpl; auto.
  - apply reach_step with (0%nat, mkBall 0 0 0 0 (Some "red"%string));
      [constructor | simpl; auto |].
    unfold centerDistance, BALL_SIZE, GROUP_RADIUS. cbn [snd x y].
    replace (0 + 20 / 2 - (50 + 20 / 2)) with (- (50)) by lra.
    replace (0 + 20 / 2 - (0 + 20 / 2)) with 0 by lra.
    rewrite hypot_axis_neg; lra.
Defined.

Lemma checkWin_true_iff balls :
  checkWin balls = true <-> balls <> [] /\ allClustered balls /\ noClash balls.
Proof.
  unfold checkWin. destruct balls as [|b balls].
  - simpl. split; [discriminate | intros [H _]; congruence].
  - cbn [length Nat.eqb].
    destruct (forallb _ (groupBalls (refs (b :: balls)))) eqn:Hg.
    + apply groups_allClustered in Hg. rewrite pairLoop_noClash.
      split; [intros H; repeat split; auto; discriminate | tauto].
    + split; [discriminate|]. intros (_ & Hc & _).
      apply groups_allClustered in Hc. congruence.
Qed.

Lemma colorGroup_same balls ball :
  (forall b, In b balls -> color b <> None) -> In ball (refs balls) ->
  colorGroup balls (keyOf ball) = sameColorGroup balls ball.
Proof.
  intros Hdef Hin. unfold colorGroup, sameColorGroup. apply filter_ext_in.
  intros e He. unfold keyOf.
  pose proof (Hdef _ (In_refs_ball _ _ He)) as H1.
  pose proof (Hdef _ (In_refs_ball _ _ Hin)) as H2.
  destruct (color (snd e)), (color (snd ball)); simpl; congruence.
Qed.

(** X10: in a won batch whose colors are all defined, every ball that has
    another ball of its color is highlighted. *)
Theorem win_highlights (balls : list Ball) (ball other : entity) :
  checkWin balls = true ->
  (forall b, In b balls -> color b <> None) ->
  In ball (refs balls) -> In other (refs balls) ->
  other <> ball -> color (snd other) = color (snd ball) ->
  getHighlight balls ball = true.
Proof.
  intros Hwin Hdef Hin Hoin Hne Hcol.
  apply checkWin_true_iff in Hwin as (_ & Hclus & _).
  specialize (Hclus ball Hin). rewrite (colorGroup_same _ _ Hdef Hin) in Hclus.
  destruct Hclus as (first & rest & E & Hall).
  assert (Hnd : NoDup (map fst (sameColorGroup balls ball)))
    by apply filter_distinct, refs_distinct.
  assert (Hball : In ball (sameColorGroup balls ball)).
  { apply filter_In. split; [assumption|]. now apply colorEqb_eq. }
  assert (Hother : In other (sameColorGroup balls ball)).
  { apply filter_In. split; [assumption|]. now apply colorEqb_eq. }
  rewrite (getHighlight_visited _ _ _ _ Hin E).
  rewrite E in *.
  assert (Hfirst : In first (first :: rest)) by now left.
  rewrite !andb_true_iff, negb_true_iff, Nat.ltb_ge, Nat.ltb_lt.
  rewrite (traverse_reach _ first Hnd Hfirst ball Hball).
  rewrite (traverse_plural _ first Hnd Hfirst).
  split; [|split].
  - destruct rest as [|e rest']; [|simpl; lia].
    destruct Hball as [<- | []], Hother as [<- | []]. congruence.
  - now apply Hall.
  - destruct (Nat.eq_dec (fst ball) (fst first)) as [Eq | Nq].
    + exists other. split; [|now apply Hall]. intros ->.
      apply Hne. symmetry. now apply (same_ref (first :: rest) Hnd).
    + exists ball. split; [congruence | now apply Hall].
Qed.

Lemma win_highlights_witness :
  getHighlight sortedBatch (2%nat, mkBall 50 0 0 0 (Some "red"%string)) = true.
Proof.
  apply (win_highlights sortedBatch _ (0%nat, mkBall 0 0 0 0 (Some "red"%string))).
  - apply checkWin_true_iff. split; [discriminate|]. split.
    + assert (Hred : clustered (colorGroup sortedBatch "red")).
      { exists (0%nat, mkBall 0 0 0 0 (Some "red"%string)),
               [(2%nat, mkBall 50 0 0 0 (Some "red"%string))].
        split; [reflexivity|].
        intros e [<- | [<- | []]]; [constructor|].
        apply reach_step with (0%nat, mkBall 0 0 0 0 (Some "red"%string));
          [constructor | simpl; auto |].
        unfold centerDistance, BALL_SIZE, GROUP_RADIUS. cbn [snd x y].
        replace (0 + 20 / 2 - (50 + 20 / 2)) with (- (50)) by lra.
        replace (0 + 20 / 2 - (0 + 20 / 2)) with 0 by lra.
        rewrite hypot_axis_neg; lra. }
      assert (Hblue : clustered (colorGroup sortedBatch "blue")).
      { exists (1%nat, mkBall 300 0 0 0 (Some "blue"%string)),
               [(3%nat, mkBall 350 0 0 0 (Some "blue"%string))].
        split; [reflexivity|].
        intros e [<- | [<- | []]]; [constructor|].
        apply reach_step with (1%nat, mkBall 300 0 0 0 (Some "blue"%string));
          [constructor | simpl; auto |].
        unfold centerDistance, BALL_SIZE, GROUP_RADIUS. cbn [snd x y].
        replace (300 + 20 / 2 - (350 + 20 / 2)) with (- (50)) by lra.
        replace (0 + 20 / 2 - (0 + 20 / 2)) with 0 by lra.
        rewrite hypot_axis_neg; lra. }
      intros e [<- | [<- | [<- | [<- | []]]]]; assumption.
    + intros a b Ha Hb Hc.
      unfold centerDistance, BALL_SIZE, GROUP_RADIUS.
      simpl in Ha, Hb.
      destruct Ha as [<- | [<- | [<- | [<- | []]]]];
      destruct Hb as [<- | [<- | [<- | [<- | []]]]];
      cbn [x y color] in *; try congruence;
      match goal with |- _ < hypot ?u ?v =>
        replace v with 0 by lra; rewrite hypot_axis_abs;
        unfold Rabs; destruct (Rcase_abs u); lra
      end.
  - intros b [<- | [<- | [<- | [<- | []]]]]; discriminate.
  - simpl; auto.
  - simpl; auto.
  - discriminate.
  - reflexivity.
Defined.

Lemma filter_single (l : list entity) e :
  NoDup (map keyOf l) -> In e l ->
  filter (fun e' => String.eqb (keyOf e') (keyOf e)) l = [e].
Proof.
  induction l as [|a l IH]; simpl; [tauto|]. intros Hnd Hin.
  inversion Hnd as [|? ? Hnot Hnd']; subst. destruct Hin as [-> | Hin].
  - rewrite String.eqb_refl. f_equal.
    destruct (filter _ l) as [|e' l'] eqn:E; [reflexivity|]. exfalso.
    assert (He' : In e' (filter (fun e' => String.eqb (keyOf e') (keyOf e)) l))
      by (rewrite E; now left).
    apply filter_In in He' as [He' Hk]. apply String.eqb_eq in Hk.
    apply Hnot. rewrite <- Hk. now apply in_map.
  - destruct (String.eqb (keyOf a) (keyOf e)) eqn:Hk; [|now apply IH].
    apply String.eqb_eq in Hk. exfalso. apply Hnot. rewrite Hk. now apply in_map.
Qed.

Lemma refs_keys balls :
  map keyOf (refs balls) = map (fun b => colorKey (color b)) balls.
Proof.
  rewrite <- (refs_snd balls) at 2. rewrite map_map. reflexivity.
Qed.

(** X11: a batch in which no two balls have the same color key is won as
    soon as it is not empty and no two balls of different colors are within
    GROUP_RADIUS; a batch of one ball is always won. *)
Theorem checkWin_distinct_colors :
  (forall balls,
     NoDup (map (fun b => colorKey (color b)) balls) ->
     (checkWin balls = true <-> balls <> [] /\ noClash balls)) /\
  (forall b, checkWin [b] = true).
Proof.
  assert (H1 : forall balls,
     NoDup (map (fun b => colorKey (color b)) balls) ->
     (checkWin balls = true <-> balls <> [] /\ noClash balls)).
  { intros balls Hnd. rewrite checkWin_true_iff.
    assert (Hc : allClustered balls).
    { intros e He. unfold colorGroup.
      rewrite filter_single by (rewrite ?refs_keys; assumption).
      exists e, []. split; [reflexivity|]. intros e' [<- | []]. constructor. }
    tauto. }
  split; [exact H1|].
  intros b. apply H1.
  - simpl. repeat constructor. intros [].
  - split; [discriminate|]. intros a c [<- | []] [<- | []] Hne. congruence.
Qed.

Lemma checkWin_distinct_colors_witness :
  checkWin [mkBall 0 0 0 0 (Some "red"%string);
            mkBall 300 0 0 0 (Some "blue"%string)] = true.
Proof.
  apply (proj1 checkWin_distinct_colors).
  - simpl. repeat constructor; simpl; intuition discriminate.
  - split; [discriminate|]. intros a b Ha Hb Hc.
    unfold centerDistance, BALL_SIZE, GROUP_RADIUS. simpl in Ha, Hb.
    destruct Ha as [<- | [<- | []]]; destruct Hb as [<- | [<- | []]];
      cbn [x y color] in *; try congruence;
      match goal with |- _ < hypot ?u ?v =>
        replace v with 0 by lra; rewrite hypot_axis_abs;
        unfold Rabs; destruct (Rcase_abs u); lra
      end.
Defined.

(** * Further properties of the spawner and of the session *)

Lemma colors_distinct : NoDup colors.
Proof.
  unfold colors. repeat constructor; simpl; intuition discriminate.
Qed.

Lemma paletteAt_spec i colorCount :
  (1 <= colorCount <= 6)%nat ->
  exists c, nth_error colors (i mod colorCount) = Some c /\
            paletteAt i colorCount = Some c.
Proof.
  intros Hc. unfold paletteAt.
  assert (Hm : (i mod colorCount < colorCount)%nat) by (apply Nat.mod_upper_bound; lia).
  replace (colorCount =? 0)%nat with false by (symmetry; apply Nat.eqb_neq; lia).
  destruct (nth_error colors (i mod colorCount)) as [c|] eqn:E.
  - now exists c.
  - apply nth_error_None in E. simpl in E. lia.
Qed.

(** X12: when the counts pass the check and colorCount is between 1 and 6,
    each of the first colorCount colors of the palette is carried by at
    least two balls of the batch: the balls of index k and k + colorCount
    have the color of index k. *)
Theorem generateBalls_two_per_color (ballCount colorCount : nat)
    (random : nat -> R) (k : nat) :
  (colorCount * 2 <= ballCount)%nat -> (1 <= colorCount <= 6)%nat ->
  (k < colorCount)%nat ->
  exists c b1 b2,
    nth_error colors k = Some c /\
    nth_error (snd (generateBalls ballCount colorCount random)) k = Some b1 /\
    nth_error (snd (generateBalls ballCount colorCount random)) (k + colorCount)
      = Some b2 /\
    color b1 = Some c /\ color b2 = Some c.
Proof.
  intros Hb Hc Hk. unfold generateBalls.
  replace (ballCount <? colorCount * 2)%nat with false
    by (symmetry; apply Nat.ltb_ge; lia).
  cbn [snd].
  destruct (paletteAt_spec k colorCount Hc) as (c & Hc1 & Hc2).
  rewrite Nat.mod_small in Hc1 by assumption.
  exists c, (spawn random colorCount k), (spawn random colorCount (k + colorCount)).
  rewrite !nth_error_spawned by lia.
  repeat split; auto. unfold spawn. cbn [color].
  destruct (paletteAt_spec (k + colorCount) colorCount Hc) as (c' & Hc1' & Hc2').
  replace ((k + colorCount) mod colorCount)%nat with k in Hc1'.
  - congruence.
  - replace (k + colorCount)%nat with (k + 1 * colorCount)%nat by lia.
    rewrite Nat.Div0.mod_add. symmetry. now apply Nat.mod_small.
Qed.

Lemma generateBalls_two_per_color_witness :
  exists c b1 b2,
    nth_error colors 1 = Some c /\
    nth_error (snd (generateBalls 8 2 zeros)) 1 = Some b1 /\
    nth_error (snd (generateBalls 8 2 zeros)) (1 + 2) = Some b2 /\
    color b1 = Some c /\ color b2 = Some c.
Proof.
  apply generateBalls_two_per_color; simpl; lia.
Defined.

(** X13: with colorCount between 1 and 6, two balls of a generated batch
    have the same color exactly when their indices are congruent modulo
    colorCount. *)
Theorem generateBalls_same_color (ballCount colorCount : nat)
    (random : nat -> R) (i j : nat) (bi bj : Ball) :
  (1 <= colorCount <= 6)%nat ->
  nth_error (snd (generateBalls ballCount colorCount random)) i = Some bi ->
  nth_error (snd (generateBalls ballCount colorCount random)) j = Some bj ->
  (color bi = color bj <-> i mod colorCount = j mod colorCount).
Proof.
  intros Hc. unfold generateBalls.
  destruct (ballCount <? colorCount * 2)%nat; cbn [snd].
  - now destruct i.
  - rewrite !nth_error_map, !nth_error_seq.
    destruct (i <? ballCount)%nat; [|discriminate].
    destruct (j <? ballCount)%nat; [|discriminate].
    cbn [option_map Nat.add]. intros Hi Hj.
    inversion Hi; inversion Hj; subst. unfold spawn. cbn [color].
    destruct (paletteAt_spec i colorCount Hc) as (ci & Hi1 & Hi2).
    destruct (paletteAt_spec j colorCount Hc) as (cj & Hj1 & Hj2).
    rewrite Hi2, Hj2. split.
    + intros E. inversion E; subst cj.
      apply (proj1 (NoDup_nth_error colors) colors_distinct).
      * apply nth_error_Some. congruence.
      * congruence.
    + intros E. rewrite E in Hi1. congruence.
Qed.

Lemma generateBalls_same_color_witness :
  color (spawn zeros 2 1) = color (spawn zeros 2 3) <->
  (1 mod 2 = 3 mod 2)%nat.
Proof.
  apply (generateBalls_same_color 8 2 zeros 1 3); [lia | reflexivity | reflexivity].
Defined.

(** X14: [startGame] replaces the batch exactly when the counts pass the
    check and ballCount is not 0: the session then holds the new batch, is
    not won, has no cursor, no error, and its clock runs.  Otherwise only
    the error message changes: the former batch, the won flag, the cursor
    and the clock are kept, and the message is cleared when the counts pass
    the check with ballCount = 0. *)
Theorem startGame_outcome (ballCount colorCount : nat) (random : nat -> R)
    (s : Session) :
  ((colorCount * 2 <= ballCount)%nat -> ballCount <> 0%nat ->
   startGame ballCount colorCount random s =
   mkSession (map (spawn random colorCount) (seq 0 ballCount))
             None None false true None) /\
  ((ballCount < colorCount * 2)%nat ->
   startGame ballCount colorCount random s =
   mkSession (ballsRef s) (cursorRef s) (cursorPos s) (isWin s) (clock s)
             (Some (insufficient ballCount colorCount))) /\
  (ballCount = 0%nat -> colorCount = 0%nat ->
   startGame ballCount colorCount random s =
   mkSession (ballsRef s) (cursorRef s) (cursorPos s) (isWin s) (clock s) None).
Proof.
  unfold startGame, generateBalls. repeat split.
  - intros Hb Hne.
    replace (ballCount <? colorCount * 2)%nat with false
      by (symmetry; apply Nat.ltb_ge; lia).
    rewrite length_map, length_seq.
    replace (ballCount =? 0)%nat with false by (symmetry; apply Nat.eqb_neq; lia).
    reflexivity.
  - intros Hb. apply Nat.ltb_lt in Hb. now rewrite Hb.
  - intros -> ->. reflexivity.
Qed.

Lemma startGame_outcome_witness :
  startGame 3 2 zeros wonSession =
    mkSession (ballsRef wonSession) None None true false
              (Some (insufficient 3 2)) /\
  isWin (startGame 8 2 zeros wonSession) = false.
Proof.
  split.
  - exact (proj1 (proj2 (startGame_outcome 3 2 zeros wonSession)) ltac:(simpl; lia)).
  - rewrite (proj1 (startGame_outcome 8 2 zeros wonSession)) by (simpl; lia).
    reflexivity.
Defined.

Lemma stepBalls_nonempty cursor win balls :
  balls <> [] -> stepBalls cursor win balls <> [].
Proof.
  intros H E. apply H. apply length_zero_iff_nil.
  rewrite <- (stepBalls_length cursor win balls), E. reflexivity.
Qed.

Lemma consistent_handle s e : consistent s -> consistent (handle s e).
Proof.
  intros Hs.
  destruct e as [ballCount colorCount random | | cx0 cy0 l0 t0 |]; cbn [handle].
  - unfold startGame. destruct (generateBalls ballCount colorCount random) as [err balls].
    destruct (length balls =? 0)%nat eqn:E.
    + destruct Hs as [H1 H2 H3 H4 H5].
      constructor; cbn [isWin cursorPos clock ballsRef cursorRef]; auto.
    + constructor; cbn [isWin cursorPos clock ballsRef cursorRef];
        try discriminate; try congruence.
      intros _ ->. discriminate.
  - unfold animate. destruct (length (ballsRef s) =? 0)%nat eqn:E; [exact Hs|].
    assert (Hne : ballsRef s <> []) by (intros E'; rewrite E' in E; discriminate).
    pose proof (stepBalls_nonempty (cursorRef s) (isWin s) _ Hne) as Hne'.
    destruct Hs as [H1 H2 H3 H4 H5].
    destruct (negb (isWin s) && checkWin _);
      constructor; cbn [isWin cursorPos clock ballsRef cursorRef]; auto; congruence.
  - unfold handleMove. destruct (isWin s) eqn:E; [exact Hs|].
    destruct Hs as [H1 H2 H3 H4 H5].
    constructor; cbn [isWin cursorPos clock ballsRef cursorRef]; auto; congruence.
  - unfold handleLeave. destruct Hs as [H1 H2 H3 H4 H5].
    constructor; cbn [isWin cursorPos clock ballsRef cursorRef]; auto; congruence.
Qed.

(** X15: whatever the events since the component was mounted, a won
    session shows no cursor, has its clock stopped and holds a batch that is
    not empty; a cursor that is shown is the one the integrator reads; and a
    running clock comes with a batch that is not empty. *)
Theorem run_consistent (events : list Event) :
  let s := run events mounted in
  (isWin s = true ->
   cursorPos s = None /\ clock s = false /\ ballsRef s <> []) /\
  (cursorPos s <> None -> cursorPos s = cursorRef s) /\
  (clock s = true -> ballsRef s <> [] /\ isWin s = false).
Proof.
  assert (H : consistent (run events mounted)).
  { unfold run. assert (H0 : consistent mounted)
      by (constructor; simpl; congruence).
    revert H0. generalize mounted as s.
    induction events as [|e events IH]; intros s Hs; simpl; [assumption|].
    apply IH. now apply consistent_handle. }
  destruct H as [H1 H2 H3 H4 H5]. cbv zeta. repeat split; auto.
  destruct (isWin (run events mounted)) eqn:E; [|reflexivity].
  rewrite H2 in H by reflexivity. discriminate.
Qed.

Lemma run_consistent_witness :
  cursorPos (run [Start 3 2 zeros; Move 300 200 0 0] mounted) =
  cursorRef (run [Start 3 2 zeros; Move 300 200 0 0] mounted).
Proof.
  apply (proj1 (proj2 (run_consistent [Start 3 2 zeros; Move 300 200 0 0]))).
  discriminate.
Defined.

Lemma spawn_inArena random colorCount i :
  (forall k, 0 <= random k < 1) -> inArena (spawn random colorCount i).
Proof.
  intros Hr. pose proof (Hr (2 * i)%nat) as H1. pose proof (Hr (2 * i + 1)%nat) as H2.
  unfold inArena, spawn, FIELD_WIDTH, FIELD_HEIGHT, BALL_SIZE.
  cbn [x y]. repeat split; nra.
Qed.

Lemma handle_inArena s e :
  fair e -> Forall inArena (ballsRef s) -> Forall inArena (ballsRef (handle s e)).
Proof.
  intros Hfair Hs.
  destruct e as [ballCount colorCount random | | cx0 cy0 l0 t0 |]; cbn [handle].
  - unfold startGame, generateBalls.
    destruct (ballCount <? colorCount * 2)%nat; cbn [length Nat.eqb ballsRef];
      [assumption|].
    destruct (length _ =? 0)%nat; cbn [ballsRef]; [assumption|].
    apply Forall_forall. intros b Hb. apply in_map_iff in Hb as (i & <- & _).
    now apply spawn_inArena.
  - unfold animate. destruct (length (ballsRef s) =? 0)%nat; [assumption|].
    assert (H : Forall inArena (stepBalls (cursorRef s) (isWin s) (ballsRef s))).
    { apply Forall_forall. intros b' Hb'.
      apply stepBalls_settled in Hb' as [b ->]. apply settle_inArena. }
    now destruct (negb (isWin s) && checkWin _).
  - unfold handleMove. now destruct (isWin s).
  - assumption.
Qed.

(** X16: when every call of [Math.random] answers in [0, 1), whatever the
    starts, frames and pointer events since the component was mounted,
    every ball of the session is inside the arena bounds. *)
Theorem run_inArena (events : list Event) :
  Forall fair events -> Forall inArena (ballsRef (run events mounted)).
Proof.
  unfold run.
  assert (H0 : Forall inArena (ballsRef mounted)) by constructor.
  revert H0. generalize mounted as s.
  induction events as [|e events IH]; intros s Hs Hfair; simpl; [assumption|].
  inversion Hfair; subst. apply IH; [|assumption]. now apply handle_inArena.
Qed.

Lemma run_inArena_witness :
  Forall inArena
         (ballsRef (run [Start 8 2 zeros; Move 300 200 0 0; Frame; Leave; Frame]
                        mounted)).
Proof.
  apply run_inArena.
  constructor; [intros k; unfold zeros; lra | repeat constructor].
Defined.

Lemma handle_won s e :
  noStart e -> isWin s = true ->
  isWin (handle s e) = true /\
  ballsRef (handle s e) =
    match e with
    | Frame => stepBalls None false (ballsRef s)
    | _ => ballsRef s
    end.
Proof.
  intros Hn Hw.
  destruct e as [ballCount colorCount random | | cx0 cy0 l0 t0 |]; cbn [handle].
  - destruct Hn.
  - unfold animate. destruct (length (ballsRef s) =? 0)%nat eqn:E.
    + split; [assumption|]. apply Nat.eqb_eq, length_zero_iff_nil in E.
      now rewrite E.
    + rewrite Hw. cbn [negb andb isWin ballsRef]. split; [reflexivity|].
      apply stepBalls_won.
  - unfold handleMove. rewrite Hw. auto.
  - unfold handleLeave. cbn [isWin ballsRef]. auto.
Qed.

(** X17: from a won session, as long as [startGame] is not called, the
    pointer has no effect on the balls: after any frames and pointer events
    the session is still won and its batch is the one that as many steps
    with no cursor give. *)
Theorem won_ignores_pointer (events : list Event) (s : Session) :
  isWin s = true -> Forall noStart events ->
  isWin (run events s) = true /\
  ballsRef (run events s) =
    runFrames (repeat (None, false) (frames events)) (ballsRef s).
Proof.
  unfold run. revert s.
  induction events as [|e events IH]; intros s Hw Hn; simpl; [auto|].
  inversion Hn as [|? ? Hne Hn']; subst.
  destruct (handle_won s e Hne Hw) as [Hw' Hb].
  destruct (IH (handle s e) Hw' Hn') as [IH1 IH2].
  split; [assumption|]. rewrite IH2, Hb.
  destruct e; reflexivity.
Qed.

Lemma won_ignores_pointer_witness :
  ballsRef (run [Move 150 110 0 0; Frame; Leave; Frame] wonSession) =
  runFrames [(None, false); (None, false)] (ballsRef wonSession).
Proof.
  apply (won_ignores_pointer [Move 150 110 0 0; Frame; Leave; Frame] wonSession).
  - reflexivity.
  - repeat constructor.
Defined.

(** * The elapsed-time display *)

Lemma padStart_three :
  forallb (fun n => (String.length (padStart 3 (showZ (Z.of_nat n))) =? 3)%nat)
          (seq 0 1000) = true.
Proof. vm_compute. reflexivity. Qed.

Lemma padStart_length r :
  (0 <= r < 1000)%Z -> String.length (padStart 3 (showZ r)) = 3%nat.
Proof.
  intros Hr. pose proof padStart_three as H. rewrite forallb_forall in H.
  specialize (H (Z.to_nat r)). rewrite Z2Nat.id in H by lia.
  apply Nat.eqb_eq, H. apply in_seq. lia.
Qed.

Lemma floor_bounds r : IZR (floor r) <= r < IZR (floor r) + 1.
Proof. unfold floor. destruct (base_Int_part r). lra. Qed.

Lemma trunc_nonneg r : 0 <= r -> trunc r = floor r.
Proof. intros H. unfold trunc, floor. destruct (Rle_dec 0 r); [reflexivity | lra]. Qed.

(** X18: for an elapsed time ms >= 0, [formatTime] prints the whole seconds
    q, a dot, the remaining whole milliseconds r on exactly three
    characters, and "s", where 0 <= r < 1000 and 1000 q + r is the integer
    part of ms. *)
Theorem formatTime_spec (ms : R) :
  0 <= ms ->
  exists q r : Z,
    (0 <= q)%Z /\ (0 <= r < 1000)%Z /\
    IZR (1000 * q + r) <= ms < IZR (1000 * q + r) + 1 /\
    formatTime ms = (showZ q ++ "." ++ padStart 3 (showZ r) ++ "s")%string /\
    String.length (padStart 3 (showZ r)) = 3%nat.
Proof.
  intros Hms. unfold formatTime, remainder.
  rewrite trunc_nonneg by lra.
  set (q := floor (ms / 1000)).
  pose proof (floor_bounds (ms / 1000)) as Hq. fold q in Hq.
  set (r := floor (ms - 1000 * IZR q)).
  pose proof (floor_bounds (ms - 1000 * IZR q)) as Hr. fold r in Hr.
  assert (Hq0 : (0 <= q)%Z).
  { assert (H : (-1 < q)%Z) by (apply lt_IZR; lra). lia. }
  assert (Hr0 : (0 <= r < 1000)%Z).
  { assert (H1 : (-1 < r)%Z) by (apply lt_IZR; lra).
    assert (H2 : (r < 1000)%Z) by (apply lt_IZR; lra). lia. }
  exists q, r. repeat split; try lia.
  - rewrite plus_IZR, mult_IZR. lra.
  - rewrite plus_IZR, mult_IZR. lra.
  - now apply padStart_length.
Qed.

Lemma formatTime_spec_witness : formatTime 1500 = "1.500s"%string.
Proof.
  destruct (formatTime_spec 1500 ltac:(lra)) as (q & r & Hq & Hr & [H1 H2] & E & _).
  rewrite <- plus_IZR in H2. apply le_IZR in H1. apply lt_IZR in H2.
  assert (q = 1%Z) by lia. assert (r = 500%Z) by lia. subst q r.
  exact E.
Defined.

(** * Further properties, ball by ball and of the traversal *)

(** X19: a ball of the batch that is the only one of its color is not
    highlighted. *)
Theorem getHighlight_alone (balls : list Ball) (ball : entity) :
  In ball (refs balls) ->
  (forall other, In other (refs balls) ->
     color (snd other) = color (snd ball) -> other = ball) ->
  getHighlight balls ball = false.
Proof.
  intros Hin Halone.
  assert (Hball : In ball (sameColorGroup balls ball)).
  { apply filter_In. split; [assumption|]. now apply colorEqb_eq. }
  destruct (sameColorGroup balls ball) as [|first rest] eqn:E; [destruct Hball|].
  rewrite (getHighlight_visited _ _ _ _ Hin E).
  destruct rest as [|e rest']; [reflexivity|]. exfalso.
  assert (Hnd : NoDup (map fst (sameColorGroup balls ball)))
    by apply filter_distinct, refs_distinct.
  assert (H1 : In first (sameColorGroup balls ball)) by (rewrite E; simpl; auto).
  assert (H2 : In e (sameColorGroup balls ball)) by (rewrite E; simpl; auto).
  apply filter_In in H1 as [H1 C1]. apply filter_In in H2 as [H2 C2].
  apply colorEqb_eq in C1, C2.
  rewrite (Halone _ H1 C1), (Halone _ H2 C2) in E. rewrite E in Hnd.
  inversion Hnd as [|? ? Hnot _]. apply Hnot. simpl. auto.
Qed.

Lemma getHighlight_alone_witness :
  getHighlight [mkBall 0 0 0 0 (Some "red"%string);
                mkBall 50 0 0 0 (Some "blue"%string)]
               (0%nat, mkBall 0 0 0 0 (Some "red"%string)) = false.
Proof.
  apply getHighlight_alone.
  - simpl; auto.
  - intros other [<- | [<- | []]] Hc; [reflexivity | discriminate Hc].
Defined.

(** X20: the four boundary tests act on each axis by itself: the
    coordinate is clamped to the arena, and the velocity component on that
    axis is multiplied by -0.6 when the coordinate was outside and kept
    otherwise; the color is kept. *)
Theorem bounce_axes (b : Ball) :
  x (bounce b) = clamp 0 (FIELD_WIDTH - BALL_SIZE) (x b) /\
  y (bounce b) = clamp 0 (FIELD_HEIGHT - BALL_SIZE) (y b) /\
  vx (bounce b) =
    (if Rltb (x b) 0 || Rltb (FIELD_WIDTH - BALL_SIZE) (x b)
     then vx b * - (6 / 10) else vx b) /\
  vy (bounce b) =
    (if Rltb (y b) 0 || Rltb (FIELD_HEIGHT - BALL_SIZE) (y b)
     then vy b * - (6 / 10) else vy b) /\
  color (bounce b) = color b.
Proof.
  split; [apply x_bounce|]. split; [apply y_bounce|].
  unfold bounce, bounceBottom, bounceTop, bounceRight, bounceLeft,
    FIELD_WIDTH, FIELD_HEIGHT, BALL_SIZE.
  destruct (Rltb (x b) 0) eqn:H1; cbn [x y vx vy color].
  - replace (Rltb (600 - 20) 0) with false by (symmetry; apply Rltb_false; lra).
    cbn [x y vx vy color orb].
    destruct (Rltb (y b) 0) eqn:H3; cbn [x y vx vy color].
    + replace (Rltb (500 - 20) 0) with false by (symmetry; apply Rltb_false; lra).
      auto.
    + destruct (Rltb (500 - 20) (y b)); cbn [x y vx vy color orb]; auto.
  - destruct (Rltb (600 - 20) (x b)) eqn:H2; cbn [x y vx vy color orb];
      (destruct (Rltb (y b) 0) eqn:H3; cbn [x y vx vy color];
       [ replace (Rltb (500 - 20) 0) with false by (symmetry; apply Rltb_false; lra);
         auto
       | destruct (Rltb (500 - 20) (y b)); cbn [x y vx vy color orb]; auto ]).
Qed.

(** X22: on a group of distinct balls and a seed taken in it, the
    traversal ends with a visited set that has no repetition and holds
    exactly the references of the group members the seed reaches along edges
    of length at most GROUP_RADIUS. *)
Theorem traverse_cluster (group : list entity) (seed : entity) :
  NoDup (map fst group) -> In seed group ->
  NoDup (traverse group [seed] []) /\
  forall r,
    In r (traverse group [seed] []) <->
    exists e, In e group /\ fst e = r /\ reach group seed e.
Proof.
  intros Hnd Hin. split; [now apply traverse_distinct|].
  intros r. split.
  - intros Hr.
    pose proof (traverse_refs group seed Hnd Hin r Hr) as Hm.
    apply in_map_iff in Hm as (e & <- & He). exists e.
    repeat split; auto.
    apply (traverse_reach group seed Hnd Hin e He). now apply has_In.
  - intros (e & He & <- & Hr).
    apply has_In. now apply (traverse_reach group seed Hnd Hin e He).
Qed.

Lemma traverse_cluster_witness :
  NoDup (traverse (refs redPair) [(0%nat, mkBall 0 0 0 0 (Some "red"%string))] []).
Proof.
  apply (traverse_cluster (refs redPair)).
  - apply refs_distinct.
  - simpl; auto.
Defined.

(** * The speed bound and the rounding *)

(** ** The loops, whatever the arithmetic *)

Section LoopFacts.

Variable B : Type.
Variable push : B -> B.
Variable hit : B -> B -> B * B.
Variable finish : B -> B.

Lemma putAt_length i (b : B) balls : length (putAt i b balls) = length balls.
Proof.
  revert i. induction balls as [|a balls IH]; intros [|i]; simpl; auto.
Qed.

Lemma nth_error_putAt_eq i (b : B) balls :
  (i < length balls)%nat -> nth_error (putAt i b balls) i = Some b.
Proof.
  revert i. induction balls as [|a balls IH]; intros [|i] H; simpl in *;
    try lia; auto. apply IH. lia.
Qed.

Lemma nth_error_putAt_ne i k (b : B) balls :
  i <> k -> nth_error (putAt i b balls) k = nth_error balls k.
Proof.
  revert i k. induction balls as [|a balls IH]; intros [|i] [|k] H; simpl;
    try congruence; auto.
Qed.

Lemma changeAt_length i (f : B -> B) balls :
  length (changeAt i f balls) = length balls.
Proof.
  unfold changeAt. destruct (nth_error balls i); auto using putAt_length.
Qed.

Lemma nth_error_changeAt_ne i k (f : B -> B) balls :
  i <> k -> nth_error (changeAt i f balls) k = nth_error balls k.
Proof.
  intros H. unfold changeAt. destruct (nth_error balls i); auto.
  now apply nth_error_putAt_ne.
Qed.

Lemma hitAt_length i j balls : length (hitAt hit i j balls) = length balls.
Proof.
  unfold hitAt. destruct (nth_error balls i); auto.
  destruct (nth_error balls j); auto. destruct (hit _ _).
  now rewrite !putAt_length.
Qed.

Lemma nth_error_hitAt_ne i j k balls :
  k <> i -> k <> j -> nth_error (hitAt hit i j balls) k = nth_error balls k.
Proof.
  intros Hi Hj. unfold hitAt. destruct (nth_error balls i); auto.
  destruct (nth_error balls j); auto. destruct (hit _ _).
  rewrite !nth_error_putAt_ne; auto.
Qed.

Lemma hits_length i js balls :
  length (fold_left (fun bs j => hitAt hit i j bs) js balls) = length balls.
Proof.
  revert balls. induction js as [|j js IH]; intros balls; simpl; auto.
  now rewrite IH, hitAt_length.
Qed.

Lemma nth_error_hits_low i js k balls :
  (k < i)%nat -> Forall (fun j => (i < j)%nat) js ->
  nth_error (fold_left (fun bs j => hitAt hit i j bs) js balls) k =
  nth_error balls k.
Proof.
  intros Hk. revert balls. induction js as [|j js IH]; intros balls Hjs; simpl; auto.
  inversion Hjs; subst. rewrite IH by assumption.
  apply nth_error_hitAt_ne; lia.
Qed.

Lemma frame_length balls i : length (frame push hit finish balls i) = length balls.
Proof.
  unfold frame. now rewrite changeAt_length, hits_length, changeAt_length.
Qed.

Lemma frame_low balls i k :
  (k < i)%nat ->
  nth_error (frame push hit finish balls i) k = nth_error balls k.
Proof.
  intros H. unfold frame.
  rewrite nth_error_changeAt_ne by lia.
  rewrite nth_error_hits_low by (auto using seq_above).
  apply nth_error_changeAt_ne. lia.
Qed.

Lemma frame_at balls i :
  (i < length balls)%nat ->
  exists b, nth_error (frame push hit finish balls i) i = Some (finish b).
Proof.
  intros H. unfold frame.
  set (balls2 := fold_left _ _ _).
  assert (Hlen : length balls2 = length balls)
    by (unfold balls2; now rewrite hits_length, changeAt_length).
  destruct (nth_error balls2 i) as [b|] eqn:Hb.
  - exists b. unfold changeAt. rewrite Hb. apply nth_error_putAt_eq. lia.
  - apply nth_error_None in Hb. lia.
Qed.

Lemma frames_finished n i balls :
  (i + n = length balls)%nat ->
  (forall k, (k < i)%nat -> exists b, nth_error balls k = Some (finish b)) ->
  forall k, (k < length balls)%nat ->
  exists b,
    nth_error (fold_left (frame push hit finish) (seq i n) balls) k =
    Some (finish b).
Proof.
  revert i balls. induction n as [|n IH]; intros i balls Hlen Hlow k Hk; simpl.
  - apply Hlow. lia.
  - rewrite <- (frame_length balls i) in Hk.
    apply IH; auto.
    + rewrite frame_length. lia.
    + intros m Hm. destruct (Nat.eq_dec m i) as [-> | Hne].
      * apply frame_at. lia.
      * rewrite frame_low by lia. apply Hlow. lia.
Qed.

Lemma pass_length balls : length (pass push hit finish balls) = length balls.
Proof.
  unfold pass. generalize (seq 0 (length balls)) as js. intros js.
  revert balls. induction js as [|j js IH]; intros balls; simpl; auto.
  now rewrite IH, frame_length.
Qed.

(** Every ball leaves a pass as [finish] left it. *)
Lemma pass_finished balls b' :
  In b' (pass push hit finish balls) -> exists b, b' = finish b.
Proof.
  intros H. apply In_nth_error in H as [k Hk].
  assert (Hlt : (k < length balls)%nat).
  { rewrite <- (pass_length balls). apply nth_error_Some. congruence. }
  destruct (frames_finished (length balls) 0 balls eq_refl
              (fun k H => ltac:(lia)) k Hlt) as [b Hb].
  unfold pass in Hk. rewrite Hb in Hk. exists b. congruence.
Qed.

End LoopFacts.

(** The loops above, on the exact operations, are the step of the
    integrator. *)
Lemma pass_stepBalls cursor win balls :
  pass (pushFromCursor cursor win) collide settle balls =
  stepBalls cursor win balls.
Proof. reflexivity. Qed.

(** So is the integrator in rounded arithmetic when nothing is rounded. *)
Lemma stepBallsR_exact cursor win balls :
  stepBallsR (fun r => r) hypot cursor win balls = stepBalls cursor win balls.
Proof. rewrite <- pass_stepBalls. reflexivity. Qed.

(** ** Magnitudes *)

Lemma hypot_abs a b : hypot (Rabs a) (Rabs b) = hypot a b.
Proof.
  unfold hypot. f_equal.
  rewrite <- (Rabs_mult a a), <- (Rabs_mult b b).
  rewrite !Rabs_pos_eq; nra.
Qed.

Lemma hypot_within a b c d :
  Rabs a <= c -> Rabs b <= d -> hypot a b <= hypot c d.
Proof.
  intros Ha Hb. rewrite <- (hypot_abs a b). apply hypot_mono.
  pose proof (Rabs_pos a). pose proof (Rabs_pos b). nra.
Qed.

Lemma hypot_triangle a b c d : hypot (a + c) (b + d) <= hypot a b + hypot c d.
Proof.
  pose proof (hypot_nonneg a b) as H1. pose proof (hypot_nonneg c d) as H2.
  pose proof (hypot_sq a b) as S1. pose proof (hypot_sq c d) as S2.
  apply hypot_le_iff; [lra|].
  assert (Hcs : a * c + b * d <= hypot a b * hypot c d).
  { destruct (Rle_lt_dec (a * c + b * d) 0) as [Hn | Hp]; [nra|].
    assert (Hsq : (a * c + b * d) * (a * c + b * d) <=
                  (hypot a b * hypot c d) * (hypot a b * hypot c d)).
    { replace (hypot a b * hypot c d * (hypot a b * hypot c d))
        with ((hypot a b * hypot a b) * (hypot c d * hypot c d)) by ring.
      rewrite S1, S2.
      replace ((a * a + b * b) * (c * c + d * d))
        with ((a * c + b * d) * (a * c + b * d) +
              (a * d - b * c) * (a * d - b * c)) by ring.
      pose proof (Rle_0_sqr (a * d - b * c)) as H0. unfold Rsqr in H0. lra. }
    assert (Hpos : 0 <= hypot a b * hypot c d) by nra.
    nra. }
  nra.
Qed.

(** ** The speed clamp and the walls in rounded arithmetic *)

Section RoundedSpeed.

Variable rnd : R -> R.
Variable hyp : R -> R -> R.
Variables u uh eta : R.

Hypothesis u_small : 0 <= u <= 1 / 8.
Hypothesis eta_small : 0 <= eta <= 1 / 8.
Hypothesis uh_small : 0 <= uh < 1.
Hypothesis rnd_error : forall r, Rabs (rnd r - r) <= u * Rabs r + eta.
Hypothesis hyp_error : forall a b, (1 - uh) * hypot a b <= hyp a b.

Lemma rnd_abs r : Rabs (rnd r) <= (1 + u) * Rabs r + eta.
Proof using rnd_error.
  pose proof (rnd_error r) as H.
  replace (rnd r) with (r + (rnd r - r)) by ring.
  eapply Rle_trans; [apply Rabs_triang|]. lra.
Qed.

(** A component multiplied by -0.6 grows by no more than [eta]. *)
Lemma damped_abs v : Rabs (rnd (v * - rnd (6 / 10))) <= Rabs v + eta.
Proof using rnd_error u_small eta_small.
  pose proof (rnd_abs (6 / 10)) as Hc.
  rewrite (Rabs_pos_eq (6 / 10)) in Hc by lra.
  pose proof (rnd_abs (v * - rnd (6 / 10))) as Hz.
  rewrite Rabs_mult, Rabs_Ropp in Hz.
  pose proof (Rabs_pos v) as Hv. pose proof (Rabs_pos (rnd (6 / 10))) as Hc0.
  assert (Hc8 : Rabs (rnd (6 / 10)) <= 8 / 10) by nra.
  assert (Hm : Rabs v * Rabs (rnd (6 / 10)) <= 8 / 10 * Rabs v) by nra.
  nra.
Qed.

Lemma hypot_nudge_l a a' b e :
  0 <= e -> Rabs a' <= Rabs a + e -> hypot a' b <= hypot a b + e.
Proof.
  intros He Ha.
  apply Rle_trans with (hypot (Rabs a + e) (Rabs b + 0)).
  - apply hypot_within; lra.
  - eapply Rle_trans; [apply hypot_triangle|].
    rewrite hypot_abs, hypot_axis by assumption. lra.
Qed.

Lemma hypot_nudge_r a b b' e :
  0 <= e -> Rabs b' <= Rabs b + e -> hypot a b' <= hypot a b + e.
Proof.
  intros He Hb.
  assert (Hs : forall p q, hypot p q = hypot q p)
    by (intros; unfold hypot; f_equal; ring).
  rewrite (Hs a b'), (Hs a b). now apply hypot_nudge_l.
Qed.

Lemma bounceLeftR_speed b :
  speed (bounceLeftR rnd b) <= speed b + eta.
Proof using rnd_error u_small eta_small.
  unfold bounceLeftR, speed. destruct (Rltb (x b) 0); cbn [vx vy]; [|lra].
  apply hypot_nudge_l; [lra | apply damped_abs].
Qed.

Lemma bounceRightR_speed b :
  speed (bounceRightR rnd b) <= speed b + eta.
Proof using rnd_error u_small eta_small.
  unfold bounceRightR, speed. destruct (Rltb _ (x b)); cbn [vx vy]; [|lra].
  apply hypot_nudge_l; [lra | apply damped_abs].
Qed.

Lemma bounceTopR_speed b :
  speed (bounceTopR rnd b) <= speed b + eta.
Proof using rnd_error u_small eta_small.
  unfold bounceTopR, speed. destruct (Rltb (y b) 0); cbn [vx vy]; [|lra].
  apply hypot_nudge_r; [lra | apply damped_abs].
Qed.

Lemma bounceBottomR_speed b :
  speed (bounceBottomR rnd b) <= speed b + eta.
Proof using rnd_error u_small eta_small.
  unfold bounceBottomR, speed. destruct (Rltb _ (y b)); cbn [vx vy]; [|lra].
  apply hypot_nudge_r; [lra | apply damped_abs].
Qed.

Lemma bounceR_speed b : speed (bounceR rnd b) <= speed b + 4 * eta.
Proof using rnd_error u_small eta_small.
  unfold bounceR.
  pose proof (bounceLeftR_speed b).
  pose proof (bounceRightR_speed (bounceLeftR rnd b)).
  pose proof (bounceTopR_speed (bounceRightR rnd (bounceLeftR rnd b))).
  pose proof (bounceBottomR_speed
                (bounceTopR rnd (bounceRightR rnd (bounceLeftR rnd b)))).
  lra.
Qed.

(** A rescaled component: the quotient and the product are each rounded
    once. *)
Lemma rescaled_abs v s :
  0 < s ->
  Rabs (rnd (rnd (v / s) * MAX_SPEED)) <=
  MAX_SPEED * ((1 + u) * (1 + u)) / s * Rabs v + 8 * eta.
Proof using rnd_error u_small eta_small.
  intros Hs. unfold MAX_SPEED.
  pose proof (rnd_abs (v / s)) as Hq.
  pose proof (rnd_abs (rnd (v / s) * 6)) as Hp.
  rewrite Rabs_mult, (Rabs_pos_eq 6) in Hp by lra.
  assert (Hi : 0 < / s) by now apply Rinv_0_lt_compat.
  assert (Hvs : Rabs (v / s) = Rabs v * / s).
  { unfold Rdiv. rewrite Rabs_mult, (Rabs_pos_eq (/ s)); lra. }
  rewrite Hvs in Hq.
  pose proof (Rabs_pos v) as Hv.
  set (w := Rabs v * / s) in *.
  assert (Hw : 0 <= w) by (unfold w; nra).
  replace (6 * ((1 + u) * (1 + u)) / s * Rabs v)
    with (6 * ((1 + u) * (1 + u)) * w) by (unfold w; field; lra).
  set (q := Rabs (rnd (v / s))) in *.
  assert (Hq0 : 0 <= q) by apply Rabs_pos.
  assert (H1 : (1 + u) * (q * 6) <= (1 + u) * (((1 + u) * w + eta) * 6)) by nra.
  assert (H2 : (1 + u) * (eta * 6) <= 7 * eta) by nra.
  nra.
Qed.

Lemma limitSpeedR_speed b :
  speed (limitSpeedR rnd hyp b) <=
  MAX_SPEED * ((1 + u) * (1 + u)) / (1 - uh) + 16 * eta.
Proof using rnd_error hyp_error u_small eta_small uh_small.
  unfold limitSpeedR.
  pose proof (hyp_error (vx b) (vy b)) as Hh.
  pose proof (hypot_nonneg (vx b) (vy b)) as Hn.
  set (s := hyp (vx b) (vy b)) in *. set (h := hypot (vx b) (vy b)) in *.
  assert (Hu : 1 <= (1 + u) * (1 + u)) by nra.
  assert (Hd : 0 < 1 - uh) by lra.
  assert (Hi : 0 < / (1 - uh)) by now apply Rinv_0_lt_compat.
  assert (Hhs : h <= s / (1 - uh)).
  { apply Rmult_le_reg_r with (1 - uh); [assumption|].
    replace (s / (1 - uh) * (1 - uh)) with s by (field; lra). lra. }
  destruct (Rltb MAX_SPEED s) eqn:E.
  - apply Rltb_true in E. unfold MAX_SPEED in *.
    assert (Hs : 0 < s) by lra.
    unfold speed. cbn [vx vy].
    set (A := 6 * ((1 + u) * (1 + u)) / s).
    assert (HA : 0 <= A).
    { unfold A. apply Rmult_le_pos; [nra|]. apply Rlt_le, Rinv_0_lt_compat. lra. }
    apply Rle_trans with (hypot (A * Rabs (vx b) + 8 * eta) (A * Rabs (vy b) + 8 * eta)).
    { apply hypot_within; apply (rescaled_abs _ s Hs). }
    eapply Rle_trans; [apply hypot_triangle|].
    assert (H1 : hypot (A * Rabs (vx b)) (A * Rabs (vy b)) = A * h).
    { replace (A * Rabs (vx b)) with (Rabs (vx b) * A) by ring.
      replace (A * Rabs (vy b)) with (Rabs (vy b) * A) by ring.
      rewrite hypot_scale by assumption. now rewrite hypot_abs. }
    assert (H2 : hypot (8 * eta) (8 * eta) <= 16 * eta).
    { apply hypot_le_iff; nra. }
    assert (H3 : A * h <= 6 * ((1 + u) * (1 + u)) / (1 - uh)).
    { unfold A.
      replace (6 * ((1 + u) * (1 + u)) / s * h)
        with (6 * ((1 + u) * (1 + u)) * (h / s)) by (field; lra).
      replace (6 * ((1 + u) * (1 + u)) / (1 - uh))
        with (6 * ((1 + u) * (1 + u)) * (/ (1 - uh))) by (field; lra).
      apply Rmult_le_compat_l; [nra|].
      apply Rmult_le_reg_r with s; [assumption|].
      replace (h / s * s) with h by (field; lra).
      replace (/ (1 - uh) * s) with (s / (1 - uh)) by (field; lra).
      assumption. }
    lra.
  - apply Rltb_false in E. fold (speed b). unfold speed. fold h.
    unfold MAX_SPEED in *.
    assert (H1 : s / (1 - uh) <= 6 / (1 - uh)).
    { unfold Rdiv. apply Rmult_le_compat_r; lra. }
    assert (H2 : 6 / (1 - uh) <= 6 * ((1 + u) * (1 + u)) / (1 - uh)).
    { unfold Rdiv. apply Rmult_le_compat_r; nra. }
    lra.
Qed.

Lemma settleR_speed b : speed (settleR rnd hyp b) <= speedBound u uh eta.
Proof using rnd_error hyp_error u_small eta_small uh_small.
  unfold settleR, speedBound.
  pose proof (bounceR_speed (limitSpeedR rnd hyp (moveR rnd b))).
  pose proof (limitSpeedR_speed (moveR rnd b)).
  lra.
Qed.


End RoundedSpeed.


(** ** The speed clamp on binary64 numbers *)

Lemma six_lt_hypot a b : 36 < a * a + b * b -> MAX_SPEED < hypot a b.
Proof.
  intros H. unfold MAX_SPEED.
  replace 6 with (hypot 6 0) by (apply hypot_axis; lra).
  apply hypot_mono_lt. lra.
Qed.

